(** * fix_background.py: moving the start-up console logs of background.js

    The script reads [src/background.js], runs two [re.sub] passes over the
    whole text and writes the result back, then prints one confirmation line.

    The development follows the script:
    - [Unicode]: Python's [str] as a list of code points, the strict UTF-8
      codec of [open(..., encoding='utf-8')] and the newline translation of
      text-mode files;
    - [Re]: the part of Python's [re] that the two patterns use (literal
      characters, [[^c]+], one capture group), matched leftmost, greedily and
      with backtracking, and [re.sub] with a replacement template;
    - [FixBackground]: the two patterns, the two templates and the passes;
    - [Script]: the file system, the exceptions and the script itself;
    - [Inputs]: small texts and files for the examples.

    The properties follow: the matcher, the substitution, the two passes
    one by one and together, the codec, the script and the outcomes of a
    run, and then the claims about the script one by one. *)

From Stdlib Require Import List NArith Arith Lia Bool.
From Stdlib.Strings Require Import String Ascii Byte.
Import ListNotations.

(* ================================================================== *)
(** ** Text *)

Module Unicode.

Local Open Scope N_scope.

(** A Python [str] is a sequence of code points. *)
Definition text := list N.

Definition LF : N := 10.
Definition CR : N := 13.
(** The closing brace. *)
Definition RBRACE : N := 125.

(** Unicode scalar values: what a [str] decoded from UTF-8 can hold and
    what the strict encoder accepts (no surrogates, at most U+10FFFF). *)
Definition scalar (c : N) : bool :=
  (c <? 0xD800) || ((0xE000 <=? c) && (c <=? 0x10FFFF)).

Definition scalars (t : text) : bool := forallb scalar t.

Definition between (lo hi b : N) : bool := (lo <=? b) && (b <=? hi).

(** Continuation byte. *)
Definition cont (b : N) : bool := between 0x80 0xBF b.

(** Range of the second byte after a three-byte lead (no overlong forms,
    no surrogates) and after a four-byte lead (no overlong forms, nothing
    above U+10FFFF). *)
Definition second3 (b0 b1 : N) : bool :=
  if b0 =? 0xE0 then between 0xA0 0xBF b1
  else if b0 =? 0xED then between 0x80 0x9F b1
  else cont b1.

Definition second4 (b0 b1 : N) : bool :=
  if b0 =? 0xF0 then between 0x90 0xBF b1
  else if b0 =? 0xF4 then between 0x80 0x8F b1
  else cont b1.

(** Strict UTF-8 decoding ([errors='strict']): [None] stands for
    [UnicodeDecodeError]. *)
Fixpoint utf8_decode (bs : list N) : option text :=
  match bs with
  | [] => Some []
  | b0 :: r0 =>
    if b0 <? 0x80 then option_map (cons b0) (utf8_decode r0)
    else if between 0xC2 0xDF b0 then
      match r0 with
      | b1 :: r1 =>
        if cont b1
        then option_map (cons ((b0 - 0xC0) * 64 + (b1 - 0x80)))
                        (utf8_decode r1)
        else None
      | _ => None
      end
    else if between 0xE0 0xEF b0 then
      match r0 with
      | b1 :: b2 :: r2 =>
        if second3 b0 b1 && cont b2
        then option_map
               (cons ((b0 - 0xE0) * 4096 + (b1 - 0x80) * 64 + (b2 - 0x80)))
               (utf8_decode r2)
        else None
      | _ => None
      end
    else if between 0xF0 0xF4 b0 then
      match r0 with
      | b1 :: b2 :: b3 :: r3 =>
        if second4 b0 b1 && cont b2 && cont b3
        then option_map
               (cons ((b0 - 0xF0) * 262144 + (b1 - 0x80) * 4096
                      + (b2 - 0x80) * 64 + (b3 - 0x80)))
               (utf8_decode r3)
        else None
      | _ => None
      end
    else None
  end.

(** Strict UTF-8 encoding of one code point: [None] stands for
    [UnicodeEncodeError] (a surrogate). *)
Definition utf8_encode1 (c : N) : option (list N) :=
  if c <? 0x80 then Some [c]
  else if c <? 0x800 then Some [0xC0 + c / 64; 0x80 + c mod 64]
  else if c <? 0x10000 then
    if between 0xD800 0xDFFF c then None
    else Some [0xE0 + c / 4096; 0x80 + (c / 64) mod 64; 0x80 + c mod 64]
  else if c <=? 0x10FFFF then
    Some [0xF0 + c / 262144; 0x80 + (c / 4096) mod 64;
          0x80 + (c / 64) mod 64; 0x80 + c mod 64]
  else None.

Fixpoint utf8_encode (t : text) : option (list N) :=
  match t with
  | [] => Some []
  | c :: r =>
    match utf8_encode1 c, utf8_encode r with
    | Some bs, Some rs => Some (bs ++ rs)
    | _, _ => None
    end
  end.

Definition byte_of_N (n : N) : byte :=
  match Byte.of_N n with Some b => b | None => x00 end.

Definition decode (bs : list byte) : option text :=
  utf8_decode (map Byte.to_N bs).

Definition encode (t : text) : option (list byte) :=
  option_map (map byte_of_N) (utf8_encode t).

(** Reading in text mode with the default [newline=None]: universal
    newlines, every ["\r\n"] and every lone ["\r"] becomes ["\n"]. *)
Fixpoint universal_newlines (t : text) : text :=
  match t with
  | [] => []
  | c :: r =>
    if c =? CR then
      LF :: match r with
            | c' :: r' =>
              if c' =? LF then universal_newlines r' else universal_newlines r
            | [] => universal_newlines r
            end
    else c :: universal_newlines r
  end.

(** Writing in text mode with the default [newline=None]: every ["\n"]
    becomes [os.linesep]. *)
Inductive platform := Posix | Windows.

Definition os_linesep (os : platform) : text :=
  match os with Posix => [LF] | Windows => [CR; LF] end.

Definition translate_newlines (os : platform) (t : text) : text :=
  flat_map (fun c => if c =? LF then os_linesep os else [c]) t.

(** A string literal of the script, as the [str] it denotes: this file
    is UTF-8, like the script. *)
Definition str (s : string) : text :=
  match decode (list_byte_of_string s) with
  | Some t => t
  | None => []
  end.

End Unicode.

Import Unicode.

(* ================================================================== *)
(** ** The regular expressions of the script *)

Module Re.

(** The two patterns are sequences of literal characters and of the
    class repetition [[^c]+], with one capture group written [( ... )]. *)
Inductive atom :=
| Lit (c : N)          (* a literal character, escaped or not *)
| NotPlus (c : N)      (* [^c]+ , greedy *)
| Open                 (* ( : group 1 starts *)
| Close.               (* ) : group 1 ends *)

Definition regex := list atom.

(** A match, as offsets from the position where it starts: the span of
    group 1 and the end of the whole match. *)
Record mtch := Match { g_start : nat; g_end : nat; m_end : nat }.

(** [[^c]*] followed by the rest of the pattern [k]: take as many
    characters as possible, and give them back one at a time while the rest
    of the pattern fails. *)
Fixpoint greedy (c : N) (k : nat -> text -> option mtch)
                (i : nat) (s : text) : option mtch :=
  match s with
  | x :: s' =>
    if N.eqb x c then k i s
    else match greedy c k (S i) s' with
         | Some r => Some r
         | None => k i s
         end
  | [] => k i s
  end.

(** [match_from p i gs ge s]: match [p] against a prefix of [s], [i]
    characters into the match, group 1 spanning [gs..ge] so far. *)
Fixpoint match_from (p : regex) (i gs ge : nat) (s : text) : option mtch :=
  match p with
  | [] => Some (Match gs ge i)
  | Lit c :: p' =>
    match s with
    | x :: s' => if N.eqb x c then match_from p' (S i) gs ge s' else None
    | [] => None
    end
  | NotPlus c :: p' =>
    match s with
    | x :: s' =>
      if N.eqb x c then None
      else greedy c (fun j t => match_from p' j gs ge t) (S i) s'
    | [] => None
    end
  | Open :: p' => match_from p' i i ge s
  | Close :: p' => match_from p' i gs i s
  end.

(** [pattern.match(s)]: a match starting at the first character. *)
Definition match_at (p : regex) (s : text) : option mtch :=
  match_from p 0 0 0 s.

Definition matches (p : regex) (s : text) : bool :=
  match match_at p s with Some _ => true | None => false end.

(** [re.search(p, s) is not None]: the pattern matches at some position,
    the end of the text included. *)
Fixpoint occurs (p : regex) (s : text) : bool :=
  match s with
  | [] => matches p []
  | _ :: s' => matches p s || occurs p s'
  end.

(** [absent_before p x s]: in [x ++ s] the pattern matches at none of the
    positions of [x]. *)
Fixpoint absent_before (p : regex) (x s : text) : bool :=
  match x with
  | [] => true
  | _ :: x' => negb (matches p (x ++ s)) && absent_before p x' s
  end.

(** Replacement templates: [\1] and literal characters. *)
Inductive titem :=
| Group1
| Chr (c : N).

Definition template := list titem.

Definition group1 (s : text) (m : mtch) : text :=
  firstn (g_end m - g_start m) (skipn (g_start m) s).

Definition expand (tpl : template) (g : text) : text :=
  flat_map (fun it => match it with Group1 => g | Chr c => [c] end) tpl.

(** [re.sub(p, tpl, s)] with the default [count=0]: scan left to right;
    where the pattern matches, emit the expanded template and go on from
    the end of the match; elsewhere copy the character.  [skip] counts
    the characters of the current match still to pass over.  An empty
    match is replaced and the character after it copied. *)
Fixpoint sub_from (p : regex) (tpl : template) (skip : nat) (s : text)
  : text :=
  match s with
  | [] =>
    match skip, match_at p [] with
    | 0, Some m => expand tpl (group1 [] m)
    | _, _ => []
    end
  | c :: s' =>
    match skip with
    | S k => sub_from p tpl k s'
    | 0 =>
      match match_at p s with
      | Some m =>
        expand tpl (group1 s m) ++
        match m_end m with
        | 0 => c :: sub_from p tpl 0 s'
        | S k => sub_from p tpl k s'
        end
      | None => c :: sub_from p tpl 0 s'
      end
    end
  end.

Definition sub (p : regex) (tpl : template) (s : text) : text :=
  sub_from p tpl 0 s.

(** [re.sub(p, tpl, s, count=1)]: only the first match is replaced. *)
Fixpoint sub_first (p : regex) (tpl : template) (s : text) : text :=
  match s with
  | [] =>
    match match_at p [] with
    | Some m => expand tpl (group1 [] m)
    | None => []
    end
  | c :: s' =>
    match match_at p s with
    | Some m => expand tpl (group1 s m) ++ skipn (m_end m) s
    | None => c :: sub_first p tpl s'
    end
  end.

(** No character of [w] is [c]. *)
Definition avoids (c : N) (w : text) : bool :=
  forallb (fun x => negb (N.eqb x c)) w.

(** One line pattern [head[^\n]+\n]. *)
Definition line_pattern (head : text) : regex :=
  map Lit head ++ [NotPlus LF; Lit LF].

(** The shape of the second pattern and template: a literal anchor as
    group 1, replaced by itself and a fixed block. *)
Definition anchor_pattern (a : text) : regex := Open :: map Lit a ++ [Close].
Definition anchor_template (b : text) : template := Group1 :: map Chr b.

Fixpoint text_eqb (u v : text) : bool :=
  match u, v with
  | [], [] => true
  | a :: u', b :: v' => N.eqb a b && text_eqb u' v'
  | _, _ => false
  end.

(** [a] does not overlap itself: no proper end of it is a beginning of
    it. *)
Definition borderless (a : text) : bool :=
  forallb (fun n => negb (text_eqb (firstn (List.length a - n) a)
                                   (skipn n a)))
          (seq 1 (List.length a - 1)).

(** The literal characters of a template are scalar values. *)
Definition template_scalars (tpl : template) : bool :=
  forallb (fun it => match it with Group1 => true | Chr c => scalar c end) tpl.

(** [starts_with a s]: [s] begins with [a]. *)
Fixpoint starts_with (a s : text) : bool :=
  match a, s with
  | [], _ => true
  | x :: a', y :: s' => N.eqb x y && starts_with a' s'
  | _ :: _, [] => false
  end.

(** The number of positions of [s] at which [a] begins. *)
Fixpoint occurrences (a s : text) : nat :=
  match s with
  | [] => if starts_with a [] then 1 else 0
  | _ :: s' => (if starts_with a s then 1 else 0) + occurrences a s'
  end.

(** [a] and [v] are equal as far as the shorter one goes. *)
Fixpoint agree (a v : text) : bool :=
  match a, v with
  | x :: a', y :: v' => N.eqb x y && agree a' v'
  | _, _ => true
  end.

(** No beginning of [a] starts anywhere in [v] and runs to its end or
    beyond: whatever follows [v], [a] does not begin inside [v]. *)
Fixpoint clean (a v : text) : bool :=
  match v with
  | [] => true
  | _ :: v' => negb (agree a v) && clean a v'
  end.

(** Every literal character of a template satisfies [P]. *)
Definition template_all (P : N -> bool) (tpl : template) : bool :=
  forallb (fun it => match it with Group1 => true | Chr c => P c end) tpl.

(** No newline of [t] is followed by a closing brace: no line of [t]
    but the first begins with one. *)
Fixpoint no_newline_brace (t : text) : bool :=
  match t with
  | x :: t' =>
    match t' with
    | y :: _ => negb (N.eqb x LF && N.eqb y RBRACE) && no_newline_brace t'
    | [] => true
    end
  | [] => true
  end.

(** [subsequence r s]: [r] is [s] with some characters deleted. *)
Inductive subsequence : text -> text -> Prop :=
| subsequence_nil : subsequence [] []
| subsequence_keep c r s : subsequence r s -> subsequence (c :: r) (c :: s)
| subsequence_drop c r s : subsequence r s -> subsequence r (c :: s).

(** Writing patterns and templates. *)
Definition lit (s : string) : regex := map Lit (str s).
Definition nl : regex := [Lit LF].
Definition not_nl_plus : regex := [NotPlus LF].

Definition chars (s : string) : template := map Chr (str s).
Definition tnl : template := [Chr LF].

End Re.

Import Re.

(* ================================================================== *)
(** ** The two passes of fix_background.py *)

Module FixBackground.

(** First [re.sub]: "Remove the early console logs". *)
Definition removal_pattern : regex :=
  [Open] ++ lit "ALARM_NAME: 'gradescope_auto_sync'" ++ nl ++ lit "};"
  ++ [Close] ++ nl ++ nl
  ++ lit "console.log('🚀 Enhanced background script" ++ not_nl_plus ++ nl
  ++ lit "console.log(`📱 Extension ID" ++ not_nl_plus ++ nl
  ++ lit "console.log(`🔑 Chrome Client ID" ++ not_nl_plus ++ nl
  ++ lit "console.log(`🌐 Web Client ID" ++ not_nl_plus ++ nl.

Definition removal_template : template :=
  [Group1] ++ tnl.

(** Second [re.sub]: "Add the console logs after the importScripts
    block". *)
Definition insertion_pattern : regex :=
  [Open]
  ++ lit "console.log('✅ Firefox: Modules loaded via manifest.json');"
  ++ nl ++ lit "}" ++ [Close].

Definition insertion_template : template :=
  [Group1] ++ tnl ++ tnl
  ++ chars "// Log configuration AFTER polyfill is loaded" ++ tnl
  ++ chars "console.log('🚀 Enhanced background script with dual authentication loaded');" ++ tnl
  ++ chars "console.log(`📱 Extension ID: ${browser.runtime.id}`);" ++ tnl
  ++ chars "console.log(`🔑 Chrome Client ID: ${CONFIG.CHROME_EXTENSION_CLIENTS[browser.runtime.id] || 'not configured'}`);" ++ tnl
  ++ chars "console.log(`🌐 Web Client ID: ${CONFIG.WEB_CLIENT_ID}`);" ++ tnl.

Definition remove_early_logs (content : text) : text :=
  sub removal_pattern removal_template content.

Definition add_logs_after_import (content : text) : text :=
  sub insertion_pattern insertion_template content.

(** The in-memory transformation: the two passes in the script's order. *)
Definition transform (content : text) : text :=
  add_logs_after_import (remove_early_logs content).

(** The removal pass as the specification words it: replace-first. *)
Definition remove_first_only (content : text) : text :=
  sub_first removal_pattern removal_template content.

(** *** The pieces of the patterns and templates, named *)

Definition alarm_anchor : text :=
  str "ALARM_NAME: 'gradescope_auto_sync'" ++ [LF] ++ str "};".

Definition firefox_anchor : text :=
  str "console.log('✅ Firefox: Modules loaded via manifest.json');"
  ++ [LF] ++ str "}".

(** The first line of each anchor. *)
Definition alarm_line : text := str "ALARM_NAME: 'gradescope_auto_sync'".

Definition firefox_line : text :=
  str "console.log('✅ Firefox: Modules loaded via manifest.json');".

(** The fixed beginnings of the four diagnostic lines of the removal
    pattern. *)
Definition head_script : text :=
  str "console.log('🚀 Enhanced background script".
Definition head_extension : text :=
  str "console.log(`📱 Extension ID".
Definition head_chrome : text :=
  str "console.log(`🔑 Chrome Client ID".
Definition head_web : text :=
  str "console.log(`🌐 Web Client ID".

Definition line_heads : list text :=
  [head_script; head_extension; head_chrome; head_web].

(** What [[^\n]+] matches: one or more characters, none a newline. *)
Definition wild (w : text) : bool :=
  negb (Nat.eqb (List.length w) 0) && avoids LF w.

(** A diagnostic line: its fixed beginning, a variable part, a newline. *)
Definition diag_line (head w : text) : text := head ++ w ++ [LF].

(** A diagnostic block: the four lines, with variable parts [ws]. *)
Definition diag_block (ws : list text) : text :=
  List.concat (map (fun hw => diag_line (fst hw) (snd hw)) (combine line_heads ws)).

(** The variable parts of the four lines that the insertion template
    writes. *)
Definition inserted_tails : list text :=
  [ str " with dual authentication loaded');";
    str ": ${browser.runtime.id}`);";
    str ": ${CONFIG.CHROME_EXTENSION_CLIENTS[browser.runtime.id] || 'not configured'}`);";
    str ": ${CONFIG.WEB_CLIENT_ID}`);" ].

Definition comment_line : text :=
  str "// Log configuration AFTER polyfill is loaded" ++ [LF].

(** Everything the insertion template writes after group 1. *)
Definition inserted_block : text :=
  [LF; LF] ++ comment_line ++ diag_block inserted_tails.


(** One removal site: the anchor, an empty line, a diagnostic block. *)
Definition removal_site (ws : list text) : text :=
  alarm_anchor ++ [LF; LF] ++ diag_block ws.

(** The match found at a removal site, and only there. *)
Definition site_match (ws : list text) : mtch :=
  Match 0 (List.length alarm_anchor) (List.length (removal_site ws)).

(** The fixed four diagnostic lines, as the template writes them. *)
Definition fixed_lines : text := diag_block inserted_tails.

(** The removal pass as the claim has it: it equals the replace-first
    substitution. *)
Definition replace_first_at (t : text) : Prop :=
  remove_early_logs t = remove_first_only t.



(** The inserted block as the claim has it, for the input
    [x ++ removal_site ws ++ y] whose first removal site is the one
    shown, and an occurrence of the Firefox anchor, between [p] and [q],
    in the text left by the removal pass: the four lines written after
    the anchor are the four lines that were removed. *)
Definition inserts_what_was_removed (x : text) (ws : list text) (y p q : text)
  : Prop :=
  forallb wild ws = true ->
  absent_before removal_pattern x (removal_site ws ++ y) = true ->
  remove_early_logs (x ++ removal_site ws ++ y) = p ++ firefox_anchor ++ q ->
  transform (x ++ removal_site ws ++ y)
  = add_logs_after_import p ++ firefox_anchor ++ [LF; LF] ++ comment_line
    ++ diag_block ws ++ add_logs_after_import q.

End FixBackground.

Import FixBackground.

(* ================================================================== *)
(** ** The script *)

Module Script.

(** The exceptions the script can end with.  The first two are
    [OSError]s (the I/O class); the Unicode errors are [ValueError]s. *)
Inductive exn :=
| FileNotFoundError
| PermissionError
| UnicodeDecodeError
| UnicodeEncodeError.

Definition is_OSError (e : exn) : bool :=
  match e with
  | FileNotFoundError | PermissionError => true
  | UnicodeDecodeError | UnicodeEncodeError => false
  end.

Inductive result (A : Type) :=
| Ok (a : A)
| Raise (e : exn).
Arguments Ok {A} a.
Arguments Raise {A} e.

(** A file: its bytes and whether this process may read and write it. *)
Record file := File {
  data : list byte;
  readable : bool;
  writable : bool
}.

Definition path := string.

(** The world of the script: the files by path, what has been printed
    to standard output, and the characters that the encoding of standard
    output has ([sys.stdout.encoding], with [errors='strict']). *)
Record world := World {
  fs : path -> option file;
  stdout : text;
  stdout_encodes : N -> bool
}.

Definition store (w : world) (p : path) (f : file) : world :=
  World (fun q => if String.eqb q p then Some f else fs w q)
        (stdout w) (stdout_encodes w).

(** Computations that may raise and that change the world. *)
Definition M (A : Type) : Type := world -> result A * world.

Definition ret {A} (a : A) : M A := fun w => (Ok a, w).

Definition bind {A B} (m : M A) (k : A -> M B) : M B :=
  fun w =>
    match m w with
    | (Ok a, w') => k a w'
    | (Raise e, w') => (Raise e, w')
    end.

Notation "x <- m ;; k" := (bind m (fun x => k))
  (at level 61, m at next level, right associativity).
Notation "m ;; k" := (bind m (fun _ => k))
  (at level 61, right associativity).

Section Run.

Variable os : platform.

(** [with open(p, 'r', encoding='utf-8') as f: content = f.read()]:
    the path must exist and the file be readable; its bytes are decoded
    strictly and its line ends normalised.  The world is not changed. *)
Definition open_read (p : path) : M text :=
  fun w =>
    match fs w p with
    | None => (Raise FileNotFoundError, w)
    | Some f =>
      if readable f then
        match decode (data f) with
        | Some t => (Ok (universal_newlines t), w)
        | None => (Raise UnicodeDecodeError, w)
        end
      else (Raise PermissionError, w)
    end.

(** [with open(p, 'w', encoding='utf-8') as f: f.write(content)]:
    opening creates the file or truncates it, unless it may not be
    written, and then fails before anything is truncated; the write
    translates the newlines, encodes the whole text and stores it, and
    when the text cannot be encoded the file is left truncated. *)
Definition open_write (p : path) (content : text) : M unit :=
  fun w =>
    let opened :=
      match fs w p with
      | None => Some (File [] true true)
      | Some f => if writable f then Some (File [] (readable f) true)
                  else None
      end in
    match opened with
    | None => (Raise PermissionError, w)
    | Some f =>
      match encode (translate_newlines os content) with
      | Some bs => (Ok tt, store w p (File bs (readable f) (writable f)))
      | None => (Raise UnicodeEncodeError, store w p f)
      end
    end.

(** [sys.stdout.write(s)]: the whole text is encoded before any of it
    is written, and a character that the encoding lacks raises
    [UnicodeEncodeError].  The stream is taken to be open. *)
Definition stdout_write (s : text) : M unit :=
  fun w =>
    if forallb (stdout_encodes w) s
    then (Ok tt, World (fs w) (stdout w ++ s) (stdout_encodes w))
    else (Raise UnicodeEncodeError, w).

(** [print(s)]: the text is written to standard output, and then the
    default [end], a newline. *)
Definition print (s : text) : M unit :=
  stdout_write s ;; stdout_write [LF].

Definition target : path := "src/background.js"%string.

Definition confirmation : text :=
  str "✅ Fixed background.js - console logs moved after polyfill import".

(** The script, top to bottom. *)
Definition fix_background : M unit :=
  content <- open_read target ;;
  let content := sub removal_pattern removal_template content in
  let content := sub insertion_pattern insertion_template content in
  open_write target content ;;
  print confirmation.

End Run.

(** The world after the write of a run that read the file [f] and wrote
    the bytes [bs], and the world after the run has completed. *)
Definition rewritten (w : world) (f : file) (bs : list byte) : world :=
  store w target (File bs (readable f) true).

Definition written (w : world) (f : file) (bs : list byte) : world :=
  World (fs (rewritten w f bs))
        (stdout w ++ confirmation ++ [LF])
        (stdout_encodes w).

(** Standard output can take the line that [print] writes. *)
Definition stdout_accepts (w : world) (s : text) : bool :=
  forallb (stdout_encodes w) (s ++ [LF]).

End Script.

Import Script.


(* ================================================================== *)
(** ** Inputs for the examples *)

Module Inputs.

(** Two removal sites, one after the other. *)
Definition two_sites : text :=
  removal_site inserted_tails ++ removal_site inserted_tails.

(** A removal site followed by an empty line and the four fixed lines
    once more. *)
Definition repeated_block : text :=
  removal_site inserted_tails ++ [LF] ++ fixed_lines.

(** The variable parts of four diagnostic lines written for Chrome. *)
Definition chrome_tails : list text :=
  [ str " with dual authentication loaded');";
    str ": ${chrome.runtime.id}`);";
    str ": ${CONFIG.CHROME_EXTENSION_CLIENTS[chrome.runtime.id] || 'not configured'}`);";
    str ": ${CONFIG.WEB_CLIENT_ID}`);" ].

(** A small background.js: a removal site, a line, the Firefox anchor. *)
Definition small_background : text :=
  str "const CONFIG = {" ++ [LF] ++ str "    "
  ++ removal_site inserted_tails
  ++ [LF] ++ str "if (typeof importScripts === 'undefined') {" ++ [LF]
  ++ str "    " ++ firefox_anchor ++ [LF].

(** A world with one file at most, nothing printed yet, and a standard
    output in UTF-8. *)
Definition world_with (f : option file) : world :=
  World (fun q => if String.eqb q target then f else None) [] scalar.

(** The same with a standard output in ASCII. *)
Definition ascii_world_with (f : option file) : world :=
  World (fun q => if String.eqb q target then f else None) []
        (fun c => N.ltb c 128).

Definition plain_file : file :=
  File (list_byte_of_string "// nothing to move here") true true.

Definition read_only_file : file :=
  File (list_byte_of_string "// nothing to move here") true false.

(** The small background.js as a file. *)
Definition background_file : file :=
  File match encode small_background with Some bs => bs | None => [] end
       true true.

(** A file that is not UTF-8. *)
Definition latin1_file : file :=
  File [x63; x61; x66; xe9] true true.

End Inputs.

Import Inputs.

(* ================================================================== *)
(** * Properties *)

(** ** The matcher and the substitution on small inputs *)

(** [re.match(r"[^\n]+x", "axbxc").end() == 4]: the repetition takes
    everything and gives back until the [x] matches. *)
Example greedy_gives_back :
  match_at (not_nl_plus ++ lit "x") (str "axbxc") = Some (Match 0 0 4).
Proof. reflexivity. Qed.

(** [re.sub(r"(ab)[^\n]+\n", r"\1-", "xabcd\nab\nabz\n") == "xab-ab\nab-"]:
    every match is replaced, and [[^\n]+] needs a character. *)
Example sub_replaces_all :
  sub ([Open] ++ lit "ab" ++ [Close] ++ not_nl_plus ++ nl)
      ([Group1] ++ chars "-")
      (str "xabcd" ++ [LF] ++ str "ab" ++ [LF] ++ str "abz" ++ [LF])
  = str "xab-ab" ++ [LF] ++ str "ab-".
Proof. reflexivity. Qed.

(** [re.sub("", "-", "ab") == "-a-b-"]: empty matches. *)
Example sub_empty_matches :
  sub [] (chars "-") (str "ab") = str "-a-b-".
Proof. reflexivity. Qed.

(** The literals are the script's: code points, not bytes. *)
Example confirmation_starts_with_check_mark :
  firstn 2 confirmation = [9989%N; 32%N]
  /\ List.length confirmation = 64.
Proof. split; reflexivity. Qed.

(** Reading normalises line ends; a file that is not UTF-8 is not read. *)
Example universal_newlines_example :
  universal_newlines (str "a" ++ [CR; LF] ++ str "b" ++ [CR] ++ str "c")
  = str "a" ++ [LF] ++ str "b" ++ [LF] ++ str "c".
Proof. reflexivity. Qed.

Example decode_rejects_surrogate :
  utf8_decode [0xED; 0xA0; 0x80]%N = None
  /\ utf8_decode [0xE2; 0x9C; 0x85]%N = Some [9989%N].
Proof. split; reflexivity. Qed.

(** ** The matcher *)

(** Lengths of concatenations, for [lia]. *)
Ltac list_len :=
  repeat (rewrite length_app || cbn [List.length]); try lia.

Section Matcher.

Implicit Types (p q : regex) (s r u w : text) (c : N) (m : mtch).

Lemma wild_avoids w :
  wild w = true <-> w <> [] /\ avoids LF w = true.
Proof.
  unfold wild. rewrite andb_true_iff, negb_true_iff, Nat.eqb_neq.
  destruct w; cbn [List.length]; intuition (try congruence; try lia).
Qed.

(** Literal characters match themselves and nothing else. *)
Lemma match_from_lits u q i gs ge r :
  match_from (map Lit u ++ q) i gs ge (u ++ r)
  = match_from q (i + List.length u) gs ge r.
Proof.
  revert i. induction u as [|x u IH]; intro i; simpl.
  - now rewrite Nat.add_0_r.
  - rewrite N.eqb_refl, IH. f_equal. lia.
Qed.

Lemma match_from_lits_inv u q i gs ge s m :
  match_from (map Lit u ++ q) i gs ge s = Some m ->
  exists r, s = u ++ r /\ match_from q (i + List.length u) gs ge r = Some m.
Proof.
  revert i s. induction u as [|x u IH]; intros i s H; simpl in *.
  - exists s. now rewrite Nat.add_0_r.
  - destruct s as [|y s]; [discriminate|].
    destruct (N.eqb_spec y x) as [->|]; [|discriminate].
    apply IH in H. destruct H as (r & -> & H). exists r. split; [reflexivity|].
    now replace (i + S (List.length u)) with (S i + List.length u) by lia.
Qed.

(** The repetition [[^c]*] before a literal [c] stops exactly at the
    first [c]: giving characters back never helps. *)
Lemma greedy_stop c k w r i :
  (forall j x t, x <> c -> k j (x :: t) = None) ->
  avoids c w = true ->
  greedy c k i (w ++ c :: r) = k (i + List.length w) (c :: r).
Proof.
  intros Hk. revert i. induction w as [|x w IH]; intros i Hw; simpl in *.
  - now rewrite N.eqb_refl, Nat.add_0_r.
  - apply andb_true_iff in Hw. destruct Hw as [Hx Hw].
    apply negb_true_iff in Hx. rewrite Hx.
    rewrite (IH (S i) Hw).
    replace (i + S (List.length w)) with (S i + List.length w) by lia.
    destruct (k _ (c :: r)); [reflexivity|].
    apply Hk. now apply N.eqb_neq.
Qed.

Lemma greedy_inv c k s i m :
  (forall j x t, x <> c -> k j (x :: t) = None) ->
  (forall j, k j [] = None) ->
  greedy c k i s = Some m ->
  exists w r, avoids c w = true /\ s = w ++ c :: r
              /\ k (i + List.length w) (c :: r) = Some m.
Proof.
  intros Hk Hnil. revert i. induction s as [|x s IH]; intros i H; simpl in H.
  - now rewrite Hnil in H.
  - destruct (N.eqb_spec x c) as [->|Hx].
    + exists [], s. simpl. now rewrite Nat.add_0_r.
    + destruct (greedy c k (S i) s) eqn:E.
      * inversion H; subst.
        destruct (IH (S i) E) as (w & r & Hw & -> & Hm).
        exists (x :: w), r. simpl.
        apply N.eqb_neq in Hx. rewrite Hx. simpl.
        now replace (i + S (List.length w)) with (S i + List.length w) by lia.
      * now rewrite Hk in H.
Qed.

Lemma match_from_line head w q i gs ge r :
  wild w = true ->
  match_from (line_pattern head ++ q) i gs ge (diag_line head w ++ r)
  = match_from q (i + List.length (diag_line head w)) gs ge r.
Proof.
  intros Hw. apply wild_avoids in Hw. destruct Hw as [Hne Hw].
  unfold line_pattern, diag_line. rewrite <- !app_assoc.
  rewrite match_from_lits.
  destruct w as [|x w]; [congruence|]. simpl in Hw.
  apply andb_true_iff in Hw. destruct Hw as [Hx Hw].
  apply negb_true_iff in Hx.
  cbn [app match_from]. rewrite Hx.
  rewrite (greedy_stop LF _ w r).
  - cbn [match_from]. rewrite N.eqb_refl. f_equal. list_len.
  - intros j y t Hy. cbn [match_from]. apply N.eqb_neq in Hy. now rewrite Hy.
  - exact Hw.
Qed.

Lemma match_from_line_inv head q i gs ge s m :
  match_from (line_pattern head ++ q) i gs ge s = Some m ->
  exists w r, wild w = true /\ s = diag_line head w ++ r
    /\ match_from q (i + List.length (diag_line head w)) gs ge r = Some m.
Proof.
  unfold line_pattern, diag_line. rewrite <- app_assoc. intros H.
  apply match_from_lits_inv in H. destruct H as (r0 & -> & H).
  cbn [app match_from] in H.
  destruct r0 as [|x r0]; [discriminate|].
  destruct (N.eqb_spec x LF) as [|Hx]; [discriminate|].
  apply greedy_inv in H.
  - destruct H as (w & r & Hw & -> & H).
    cbn [match_from] in H. rewrite N.eqb_refl in H.
    exists (x :: w), r. split; [|split].
    + apply wild_avoids. split; [discriminate|]. simpl.
      apply N.eqb_neq in Hx. now rewrite Hx.
    + now rewrite <- !app_assoc.
    + rewrite <- H. f_equal. list_len.
  - intros j y t Hy. cbn [match_from]. apply N.eqb_neq in Hy. now rewrite Hy.
  - reflexivity.
Qed.

(** A match ends inside the text it was found in. *)
Lemma greedy_end_bounds c k s i m :
  (forall j t m', k j t = Some m' ->
                  j <= m_end m' <= j + List.length t) ->
  greedy c k i s = Some m -> i <= m_end m <= i + List.length s.
Proof.
  intros Hk. revert i. induction s as [|x s IH]; intros i H; simpl in H.
  - now apply Hk in H.
  - assert (Hfall : k i (x :: s) = Some m ->
                    i <= m_end m <= i + List.length (x :: s))
      by (intro E; now apply Hk in E).
    destruct (N.eqb x c); [now apply Hfall|].
    destruct (greedy c k (S i) s) eqn:E.
    + inversion H; subst. apply IH in E. simpl. lia.
    + now apply Hfall.
Qed.

Lemma match_from_end_bounds p i gs ge s m :
  match_from p i gs ge s = Some m -> i <= m_end m <= i + List.length s.
Proof.
  revert i gs ge s m.
  induction p as [|a p IH]; intros i gs ge s m H; simpl in H.
  - inversion H; subst. simpl. lia.
  - destruct a as [c|c| |].
    + destruct s as [|x s]; [discriminate|].
      destruct (N.eqb x c); [|discriminate].
      apply IH in H. simpl. lia.
    + destruct s as [|x s]; [discriminate|].
      destruct (N.eqb x c); [discriminate|].
      apply greedy_end_bounds in H; [simpl; lia|].
      intros j t m' E. now apply IH in E.
    + now apply IH in H.
    + now apply IH in H.
Qed.

Lemma match_at_end_bound p s m :
  match_at p s = Some m -> m_end m <= List.length s.
Proof. intro H. apply match_from_end_bounds in H. lia. Qed.

End Matcher.

(** ** Substitution *)

Section Substitution.

Variable p : regex.
Variable tpl : template.

Implicit Types (s r x : text) (m : mtch).

(** The scan, one character at a time. *)
Lemma sub_from_passing k c s :
  sub_from p tpl (S k) (c :: s) = sub_from p tpl k s.
Proof. reflexivity. Qed.

Lemma sub_from_match c s m k :
  match_at p (c :: s) = Some m -> m_end m = S k ->
  sub_from p tpl 0 (c :: s)
  = expand tpl (group1 (c :: s) m) ++ sub_from p tpl k s.
Proof. intros H E. cbn [sub_from]. now rewrite H, E. Qed.

Lemma sub_from_nomatch c s :
  match_at p (c :: s) = None ->
  sub_from p tpl 0 (c :: s) = c :: sub_from p tpl 0 s.
Proof. intros H. cbn [sub_from]. now rewrite H. Qed.

(** Passing over the rest of a match. *)
Lemma sub_from_skip n s :
  n <= List.length s ->
  sub_from p tpl n s = sub p tpl (skipn n s).
Proof.
  revert s. induction n as [|n IH]; intros s Hn.
  - reflexivity.
  - destruct s as [|c s]; simpl in Hn; [lia|].
    simpl. apply IH. lia.
Qed.

(** Where the pattern matches, the template replaces the match and the
    scan goes on after it. *)
Lemma sub_match s m :
  match_at p s = Some m -> 0 < m_end m ->
  sub p tpl s = expand tpl (group1 s m) ++ sub p tpl (skipn (m_end m) s).
Proof.
  intros H Hpos. pose proof (match_at_end_bound _ _ _ H) as Hb.
  destruct s as [|c s]; simpl in Hb; [lia|].
  unfold sub at 1. cbn [sub_from]. rewrite H.
  destruct (m_end m) as [|k]; [lia|].
  rewrite sub_from_skip by lia. reflexivity.
Qed.

(** Where it does not, the character is copied. *)
Lemma sub_nomatch c s :
  matches p (c :: s) = false ->
  sub p tpl (c :: s) = c :: sub p tpl s.
Proof.
  unfold matches, sub. cbn [sub_from].
  destruct (match_at p (c :: s)); [discriminate|reflexivity].
Qed.

Lemma sub_absent_before x s :
  absent_before p x s = true ->
  sub p tpl (x ++ s) = x ++ sub p tpl s.
Proof.
  induction x as [|c x IH]; intro H; [reflexivity|].
  cbn [absent_before] in H. apply andb_true_iff in H. destruct H as [Hc Hx].
  apply negb_true_iff in Hc. cbn [app] in *.
  rewrite (sub_nomatch _ _ Hc). f_equal. now apply IH.
Qed.

(** A text in which the pattern does not occur is left as it is. *)
Lemma sub_absent s :
  occurs p s = false -> sub p tpl s = s.
Proof.
  induction s as [|c s IH]; intro H; cbn [occurs] in H.
  - unfold sub, matches in *. cbn [sub_from].
    destruct (match_at p []); [discriminate|reflexivity].
  - apply orb_false_iff in H. destruct H as [Hc Hs].
    rewrite (sub_nomatch _ _ Hc). f_equal. now apply IH.
Qed.

(** The same three facts for the replace-first substitution. *)
Lemma sub_first_match s m :
  match_at p s = Some m -> 0 < m_end m ->
  sub_first p tpl s = expand tpl (group1 s m) ++ skipn (m_end m) s.
Proof.
  intros H Hpos. pose proof (match_at_end_bound _ _ _ H) as Hb.
  destruct s as [|c s]; simpl in Hb; [lia|].
  cbn [sub_first]. now rewrite H.
Qed.

Lemma sub_first_absent_before x s :
  absent_before p x s = true ->
  sub_first p tpl (x ++ s) = x ++ sub_first p tpl s.
Proof.
  induction x as [|c x IH]; intro H; [reflexivity|].
  cbn [absent_before] in H. apply andb_true_iff in H. destruct H as [Hc Hx].
  apply negb_true_iff in Hc. cbn [app] in *. unfold matches in Hc.
  cbn [sub_first]. destruct (match_at p (c :: x ++ s)); [discriminate|].
  f_equal. now apply IH.
Qed.

(** Occurrences. *)
Lemma matches_occurs s : matches p s = true -> occurs p s = true.
Proof. destruct s; cbn [occurs]; intro H; now rewrite H. Qed.

Lemma occurs_app x s : occurs p s = true -> occurs p (x ++ s) = true.
Proof.
  intro H. induction x as [|c x IH]; [exact H|].
  cbn [app occurs]. rewrite IH. apply orb_true_r.
Qed.

(** The first occurrence splits the text. *)
Lemma occurs_first s :
  occurs p s = true ->
  exists x r, s = x ++ r /\ absent_before p x r = true
              /\ matches p r = true.
Proof.
  induction s as [|c s IH]; cbn [occurs]; intro H.
  - exists [], []. auto.
  - destruct (matches p (c :: s)) eqn:E.
    + exists [], (c :: s). auto.
    + destruct (IH H) as (x & r & -> & Hx & Hr).
      exists (c :: x), r. repeat split; [|exact Hr].
      cbn [absent_before app]. now rewrite E, Hx.
Qed.

End Substitution.

(** ** The two patterns *)

Section Patterns.

Implicit Types (s r x : text) (m : mtch).

(** The removal pattern: the anchor in group 1, an empty line, four line
    patterns. *)
Lemma removal_pattern_shape :
  removal_pattern
  = [Open] ++ map Lit alarm_anchor ++ [Close] ++ map Lit [LF; LF]
    ++ line_pattern head_script ++ line_pattern head_extension
    ++ line_pattern head_chrome ++ line_pattern head_web ++ [].
Proof. vm_compute. reflexivity. Qed.

Lemma diag_block_lines w1 w2 w3 w4 :
  diag_block [w1; w2; w3; w4]
  = diag_line head_script w1 ++ diag_line head_extension w2
    ++ diag_line head_chrome w3 ++ diag_line head_web w4.
Proof.
  unfold diag_block, line_heads.
  cbn [combine map List.concat fst snd]. now rewrite app_nil_r.
Qed.

Lemma site_length w1 w2 w3 w4 :
  List.length (removal_site [w1; w2; w3; w4])
  = S (S (0 + List.length alarm_anchor))
    + List.length (diag_line head_script w1)
    + List.length (diag_line head_extension w2)
    + List.length (diag_line head_chrome w3)
    + List.length (diag_line head_web w4).
Proof. unfold removal_site. rewrite diag_block_lines. list_len. Qed.

Lemma removal_match w1 w2 w3 w4 r :
  wild w1 = true -> wild w2 = true -> wild w3 = true -> wild w4 = true ->
  match_at removal_pattern (removal_site [w1; w2; w3; w4] ++ r)
  = Some (site_match [w1; w2; w3; w4]).
Proof.
  intros H1 H2 H3 H4. unfold match_at, site_match, removal_site.
  rewrite removal_pattern_shape, diag_block_lines.
  rewrite <- !app_assoc.
  cbn [app match_from]. rewrite match_from_lits.
  cbn [app match_from map]. rewrite !N.eqb_refl.
  rewrite !match_from_line by assumption.
  cbn [match_from]. do 2 f_equal. list_len.
Qed.

Lemma removal_match_inv s m :
  match_at removal_pattern s = Some m ->
  exists w1 w2 w3 w4 r,
    wild w1 = true /\ wild w2 = true /\ wild w3 = true /\ wild w4 = true /\
    s = removal_site [w1; w2; w3; w4] ++ r /\
    m = site_match [w1; w2; w3; w4].
Proof.
  unfold match_at. rewrite removal_pattern_shape. intro H.
  cbn [app match_from] in H.
  apply match_from_lits_inv in H. destruct H as (r0 & -> & H).
  cbn [app match_from map] in H.
  destruct r0 as [|a r0]; [discriminate|].
  destruct (N.eqb_spec a LF) as [->|]; [|discriminate].
  destruct r0 as [|b r0]; [discriminate|].
  destruct (N.eqb_spec b LF) as [->|]; [|discriminate].
  apply match_from_line_inv in H. destruct H as (w1 & r1 & H1 & -> & H).
  apply match_from_line_inv in H. destruct H as (w2 & r2 & H2 & -> & H).
  apply match_from_line_inv in H. destruct H as (w3 & r3 & H3 & -> & H).
  apply match_from_line_inv in H. destruct H as (w4 & r4 & H4 & -> & H).
  cbn [match_from] in H. injection H as <-.
  exists w1, w2, w3, w4, r4. repeat (split; [assumption|]).
  split.
  - unfold removal_site. rewrite diag_block_lines.
    now rewrite <- !app_assoc.
  - unfold site_match. now rewrite site_length.
Qed.

Lemma firstn_length_app {A} (u v : list A) :
  firstn (List.length u) (u ++ v) = u.
Proof.
  rewrite firstn_app, Nat.sub_diag, firstn_all. cbn [firstn].
  apply app_nil_r.
Qed.

Lemma skipn_length_app {A} (u v : list A) :
  skipn (List.length u) (u ++ v) = v.
Proof.
  rewrite skipn_app, Nat.sub_diag, skipn_all. reflexivity.
Qed.

Lemma site_group ws r :
  group1 (removal_site ws ++ r) (site_match ws) = alarm_anchor.
Proof.
  unfold group1, site_match, removal_site. cbn [g_start g_end skipn].
  rewrite Nat.sub_0_r, <- app_assoc. apply firstn_length_app.
Qed.

Lemma site_length_pos ws : 0 < List.length (removal_site ws).
Proof.
  unfold removal_site. rewrite length_app.
  assert (List.length alarm_anchor = 37) as -> by reflexivity. lia.
Qed.

(** The removal pass at a site: the anchor and one newline are kept, the
    block goes, and the pass continues with the rest. *)
Lemma removal_at_site w1 w2 w3 w4 r :
  wild w1 = true -> wild w2 = true -> wild w3 = true -> wild w4 = true ->
  remove_early_logs (removal_site [w1; w2; w3; w4] ++ r)
  = alarm_anchor ++ [LF] ++ remove_early_logs r.
Proof.
  intros H1 H2 H3 H4. unfold remove_early_logs.
  rewrite (sub_match _ _ _ _ (removal_match w1 w2 w3 w4 r H1 H2 H3 H4))
    by apply site_length_pos.
  rewrite site_group. cbn [site_match m_end].
  rewrite skipn_length_app.
  unfold removal_template, tnl. cbn [app expand flat_map].
  now rewrite <- app_assoc.
Qed.

Lemma remove_first_at_site w1 w2 w3 w4 r :
  wild w1 = true -> wild w2 = true -> wild w3 = true -> wild w4 = true ->
  remove_first_only (removal_site [w1; w2; w3; w4] ++ r)
  = alarm_anchor ++ [LF] ++ r.
Proof.
  intros H1 H2 H3 H4. unfold remove_first_only.
  rewrite (sub_first_match _ _ _ _ (removal_match w1 w2 w3 w4 r H1 H2 H3 H4))
    by apply site_length_pos.
  rewrite site_group. cbn [site_match m_end].
  rewrite skipn_length_app.
  unfold removal_template, tnl. cbn [app expand flat_map].
  now rewrite <- app_assoc.
Qed.

Lemma removal_absent_before x s :
  absent_before removal_pattern x s = true ->
  remove_early_logs (x ++ s) = x ++ remove_early_logs s.
Proof. apply sub_absent_before. Qed.

Lemma remove_first_absent_before x s :
  absent_before removal_pattern x s = true ->
  remove_first_only (x ++ s) = x ++ remove_first_only s.
Proof. apply sub_first_absent_before. Qed.

Lemma removal_absent s :
  occurs removal_pattern s = false -> remove_early_logs s = s.
Proof. apply sub_absent. Qed.

End Patterns.

(** ** Inserting after a literal anchor *)

Section Anchor.

Variables a b : text.
Hypothesis a_borderless : borderless a = true.
Hypothesis a_nonempty : 0 < List.length a.

Implicit Types (s r x pre post : text) (m : mtch).

Let ip := anchor_pattern a.
Let it := anchor_template b.
Let am := Match 0 (List.length a) (List.length a).

Lemma anchor_match r : match_at ip (a ++ r) = Some am.
Proof.
  unfold match_at, ip, anchor_pattern.
  cbn [match_from]. rewrite match_from_lits. reflexivity.
Qed.

Lemma anchor_match_inv s m :
  match_at ip s = Some m -> m = am /\ exists r, s = a ++ r.
Proof.
  unfold match_at, ip, anchor_pattern. cbn [match_from]. intro H.
  apply match_from_lits_inv in H. destruct H as (r & -> & H).
  cbn [match_from] in H. injection H as <-.
  split; [reflexivity|]. now exists r.
Qed.

Lemma anchor_matches_iff s :
  matches ip s = true <-> exists r, s = a ++ r.
Proof.
  unfold matches. split.
  - destruct (match_at ip s) eqn:E; [|discriminate].
    intros _. now apply anchor_match_inv in E.
  - intros (r & ->). now rewrite anchor_match.
Qed.

Lemma expand_chars g : expand (map Chr b) g = b.
Proof.
  unfold expand. induction b as [|c b' IH]; [reflexivity|].
  cbn [map flat_map app]. now rewrite IH.
Qed.

Lemma anchor_expand g : expand it g = g ++ b.
Proof.
  unfold it, anchor_template.
  change (expand (Group1 :: map Chr b) g)
    with (g ++ expand (map Chr b) g).
  now rewrite expand_chars.
Qed.

Lemma anchor_group r : group1 (a ++ r) am = a.
Proof.
  unfold group1, am. cbn [g_start g_end skipn].
  rewrite Nat.sub_0_r. apply firstn_length_app.
Qed.

Lemma anchor_sub_nil : sub_from ip it 0 [] = [].
Proof.
  cbn [sub_from]. destruct (match_at ip []) eqn:E; [|reflexivity].
  apply anchor_match_inv in E. destruct E as [_ [r E]].
  destruct a; [cbn in a_nonempty; lia | discriminate].
Qed.

(** At an anchor: the anchor, the block, and the pass goes on. *)
Lemma sub_at_anchor r :
  sub ip it (a ++ r) = a ++ b ++ sub ip it r.
Proof.
  rewrite (sub_match _ _ _ _ (anchor_match r)) by exact a_nonempty.
  rewrite anchor_group, anchor_expand. cbn [am m_end].
  now rewrite skipn_length_app, <- app_assoc.
Qed.

Lemma text_eqb_refl u : text_eqb u u = true.
Proof. induction u; simpl; [reflexivity|]. now rewrite N.eqb_refl. Qed.

Lemma borderless_no_overlap x r r' :
  0 < List.length x < List.length a ->
  x ++ a ++ r = a ++ r' -> False.
Proof.
  intros Hx H. pose proof a_borderless as Hb.
  unfold borderless in Hb. rewrite forallb_forall in Hb.
  specialize (Hb (List.length x)).
  assert (Hin : In (List.length x) (seq 1 (List.length a - 1)))
    by (apply in_seq; lia).
  apply Hb in Hin. apply negb_true_iff in Hin.
  apply (f_equal (skipn (List.length x))) in H.
  rewrite skipn_length_app, skipn_app in H.
  replace (List.length x - List.length a) with 0 in H by lia.
  cbn [skipn] in H.
  apply (f_equal (firstn (List.length a - List.length x))) in H.
  rewrite firstn_app in H.
  replace (List.length a - List.length x - List.length a) with 0 in H by lia.
  cbn [firstn] in H. rewrite app_nil_r in H.
  replace (List.length a - List.length x)
    with (List.length (skipn (List.length x) a)) in H at 2
    by (rewrite length_skipn; lia).
  rewrite firstn_length_app in H.
  rewrite H, text_eqb_refl in Hin. discriminate.
Qed.

(** A match that starts before an occurrence of the anchor ends before
    it. *)
Lemma match_before_anchor pre post r :
  pre <> [] ->
  pre ++ a ++ post = a ++ r ->
  exists pre', pre = a ++ pre'.
Proof.
  intros Hne H.
  destruct (Nat.lt_ge_cases (List.length pre) (List.length a)) as [Hlt|Hge].
  - exfalso. apply (borderless_no_overlap pre post r); [|exact H].
    destruct pre; [congruence|]. cbn [List.length] in *. lia.
  - exists (skipn (List.length a) pre).
    apply (f_equal (firstn (List.length a))) in H.
    rewrite firstn_length_app, firstn_app in H.
    replace (List.length a - List.length pre) with 0 in H by lia.
    cbn [firstn] in H. rewrite app_nil_r in H.
    rewrite <- H at 1. symmetry. apply firstn_skipn.
Qed.

Lemma sub_from_anchor_app pre post k :
  k <= List.length pre ->
  sub_from ip it k (pre ++ a ++ post)
  = sub_from ip it k pre ++ a ++ b ++ sub ip it post.
Proof.
  revert k. induction pre as [|c pre IH]; intros k Hk.
  - cbn [List.length] in Hk. assert (k = 0) as -> by lia.
    rewrite anchor_sub_nil, !app_nil_l. apply sub_at_anchor.
  - rewrite <- app_comm_cons. destruct k as [|k].
    + assert (Hend : m_end am = S (pred (List.length a)))
        by (cbn [am m_end]; lia).
      destruct (match_at ip (c :: pre ++ a ++ post)) as [m|] eqn:E.
      * destruct (anchor_match_inv _ _ E) as [-> [r Hr]].
        destruct (match_before_anchor (c :: pre) post r) as [pre' Hpre];
          [discriminate|rewrite <- app_comm_cons; exact Hr|].
        assert (E2 : match_at ip (c :: pre) = Some am)
          by (rewrite Hpre; apply anchor_match).
        assert (G1 : group1 (c :: pre ++ a ++ post) am = a)
          by (rewrite Hr; apply anchor_group).
        assert (G2 : group1 (c :: pre) am = a)
          by (rewrite Hpre; apply anchor_group).
        rewrite (sub_from_match _ _ _ _ _ _ E Hend).
        rewrite (sub_from_match _ _ _ _ _ _ E2 Hend).
        rewrite G1, G2, IH, <- app_assoc; [reflexivity|].
        apply (f_equal (@List.length N)) in Hpre.
        rewrite length_app in Hpre. cbn [List.length] in Hpre. lia.
      * assert (E2 : match_at ip (c :: pre) = None).
        { destruct (match_at ip (c :: pre)) as [m|] eqn:E'; [|reflexivity].
          apply anchor_match_inv in E'. destruct E' as [_ [r Hr]].
          rewrite app_comm_cons, Hr, <- app_assoc, anchor_match in E.
          discriminate. }
        rewrite (sub_from_nomatch _ _ _ _ E), (sub_from_nomatch _ _ _ _ E2).
        rewrite IH by lia. reflexivity.
    + rewrite !sub_from_passing. apply IH. cbn [List.length] in Hk. lia.
Qed.

(** The substitution distributes over every occurrence of the anchor. *)
Lemma sub_anchor_app pre post :
  sub ip it (pre ++ a ++ post)
  = sub ip it pre ++ a ++ b ++ sub ip it post.
Proof. apply sub_from_anchor_app. lia. Qed.

(** Nothing is removed. *)
Lemma sub_anchor_length s :
  List.length s <= List.length (sub ip it s).
Proof.
  remember (List.length s) as n eqn:Hn. revert s Hn.
  induction n as [n IH] using lt_wf_ind. intros s ->.
  destruct (occurs ip s) eqn:E.
  - apply occurs_first in E. destruct E as (x & r & -> & Hx & Hr).
    apply anchor_matches_iff in Hr. destruct Hr as [r' ->].
    rewrite (sub_absent_before _ _ _ _ Hx), sub_at_anchor.
    assert (H : List.length r' <= List.length (sub ip it r')).
    { apply (IH (List.length r')); [|reflexivity]. list_len. }
    revert H. list_len.
  - now rewrite sub_absent.
Qed.

(** Where the anchor occurs, the text grows. *)
Lemma sub_anchor_grows s :
  0 < List.length b ->
  occurs ip s = true -> List.length s < List.length (sub ip it s).
Proof.
  intros Hb E.
  apply occurs_first in E. destruct E as (x & r & -> & Hx & Hr).
  apply anchor_matches_iff in Hr. destruct Hr as [r' ->].
  rewrite (sub_absent_before _ _ _ _ Hx), sub_at_anchor.
  pose proof (sub_anchor_length r') as H. revert H. list_len.
Qed.

(** The anchors stay. *)
Lemma sub_anchor_occurs s :
  occurs ip s = true -> occurs ip (sub ip it s) = true.
Proof.
  intros E.
  apply occurs_first in E. destruct E as (x & r & -> & Hx & Hr).
  apply anchor_matches_iff in Hr. destruct Hr as [r' ->].
  rewrite (sub_absent_before _ _ _ _ Hx), sub_at_anchor.
  apply occurs_app, matches_occurs, anchor_matches_iff. eauto.
Qed.

End Anchor.

(** ** The insertion pass *)

Section Insertion.

Implicit Types (s r x pre post : text) (m : mtch).

Lemma insertion_pattern_anchor :
  insertion_pattern = anchor_pattern firefox_anchor.
Proof. vm_compute. reflexivity. Qed.

Lemma insertion_template_anchor :
  insertion_template = anchor_template inserted_block.
Proof. vm_compute. reflexivity. Qed.

Lemma firefox_anchor_borderless : borderless firefox_anchor = true.
Proof. vm_compute. reflexivity. Qed.

Lemma firefox_anchor_nonempty : 0 < List.length firefox_anchor.
Proof. vm_compute. lia. Qed.

Lemma inserted_block_nonempty : 0 < List.length inserted_block.
Proof. vm_compute. lia. Qed.

Lemma add_logs_anchor s :
  add_logs_after_import s
  = sub (anchor_pattern firefox_anchor) (anchor_template inserted_block) s.
Proof.
  unfold add_logs_after_import.
  now rewrite insertion_pattern_anchor, insertion_template_anchor.
Qed.

Lemma insertion_matches_iff s :
  matches insertion_pattern s = true <-> exists r, s = firefox_anchor ++ r.
Proof. rewrite insertion_pattern_anchor. apply anchor_matches_iff. Qed.

(** At an anchor: the anchor, the block, and the pass goes on. *)
Lemma insertion_at_anchor r :
  add_logs_after_import (firefox_anchor ++ r)
  = firefox_anchor ++ inserted_block ++ add_logs_after_import r.
Proof.
  rewrite !add_logs_anchor. apply sub_at_anchor.
  exact firefox_anchor_nonempty.
Qed.

(** The insertion pass distributes over every occurrence of the anchor. *)
Lemma insertion_app pre post :
  add_logs_after_import (pre ++ firefox_anchor ++ post)
  = add_logs_after_import pre
    ++ firefox_anchor ++ inserted_block ++ add_logs_after_import post.
Proof.
  rewrite !add_logs_anchor. apply sub_anchor_app.
  - exact firefox_anchor_borderless.
  - exact firefox_anchor_nonempty.
Qed.

Lemma insertion_absent s :
  occurs insertion_pattern s = false -> add_logs_after_import s = s.
Proof. apply sub_absent. Qed.

Lemma insertion_grows s :
  occurs insertion_pattern s = true ->
  List.length s < List.length (add_logs_after_import s).
Proof.
  rewrite add_logs_anchor, insertion_pattern_anchor.
  apply sub_anchor_grows.
  - exact firefox_anchor_nonempty.
  - exact inserted_block_nonempty.
Qed.

Lemma insertion_keeps_anchor s :
  occurs insertion_pattern s = true ->
  occurs insertion_pattern (add_logs_after_import s) = true.
Proof.
  rewrite add_logs_anchor, insertion_pattern_anchor.
  apply sub_anchor_occurs. exact firefox_anchor_nonempty.
Qed.

End Insertion.

(** ** Text files *)

Section Codec.

Local Open Scope N_scope.

Lemma between_spec lo hi b :
  between lo hi b = true <-> lo <= b <= hi.
Proof.
  unfold between. rewrite andb_true_iff, !N.leb_le. reflexivity.
Qed.

Ltac bounds :=
  repeat match goal with
  | H : _ && _ = true |- _ => apply andb_true_iff in H; destruct H
  | H : between _ _ _ = true |- _ => apply between_spec in H
  | H : cont _ = true |- _ => unfold cont in H
  | H : (_ <? _) = true |- _ => apply N.ltb_lt in H
  | H : (_ <? _) = false |- _ => apply N.ltb_ge in H
  | H : (_ <=? _) = true |- _ => apply N.leb_le in H
  | H : (_ <=? _) = false |- _ => apply N.leb_gt in H
  | H : (_ =? _) = true |- _ => apply N.eqb_eq in H
  | H : (_ =? _) = false |- _ => apply N.eqb_neq in H
  end.

Lemma scalar_spec c :
  scalar c = true <-> c < 0xD800 \/ 0xE000 <= c <= 0x10FFFF.
Proof.
  unfold scalar.
  rewrite orb_true_iff, andb_true_iff, N.ltb_lt, !N.leb_le. reflexivity.
Qed.

Lemma scalars_cons c t :
  scalar c = true -> scalars t = true -> scalars (c :: t) = true.
Proof. intros Hc Ht. unfold scalars in *. cbn [forallb]. now rewrite Hc. Qed.

(** What the decoder accepts is made of scalar values. *)
Lemma utf8_decode_scalars bs :
  forall t, utf8_decode bs = Some t -> scalars t = true.
Proof.
  remember (List.length bs) as n eqn:Hn. revert bs Hn.
  induction n as [n IH] using lt_wf_ind. intros bs -> t H.
  assert (step : forall c r, (List.length r < List.length bs)%nat ->
            scalar c = true ->
            option_map (cons c) (utf8_decode r) = Some t ->
            scalars t = true).
  { intros c r Hr Hc E. destruct (utf8_decode r) as [t'|] eqn:E';
      [|discriminate].
    injection E as <-. apply scalars_cons; [exact Hc|].
    eapply IH; [exact Hr|reflexivity|exact E']. }
  destruct bs as [|b0 r0]; [now injection H as <-|].
  cbn [utf8_decode] in H.
  destruct (b0 <? 0x80) eqn:E0.
  { eapply step; [| |exact H]; [cbn; lia|].
    apply scalar_spec. bounds. lia. }
  destruct (between 0xC2 0xDF b0) eqn:E2.
  { destruct r0 as [|b1 r1]; [discriminate|].
    destruct (cont b1) eqn:C1; [|discriminate].
    eapply step; [| |exact H]; [cbn; lia|].
    apply scalar_spec. bounds. lia. }
  destruct (between 0xE0 0xEF b0) eqn:E3.
  { destruct r0 as [|b1 [|b2 r2]]; try discriminate.
    destruct (second3 b0 b1 && cont b2) eqn:C; [|discriminate].
    eapply step; [| |exact H]; [cbn; lia|].
    apply scalar_spec. unfold second3 in C.
    destruct (b0 =? 0xE0) eqn:A0; [|destruct (b0 =? 0xED) eqn:A1];
      bounds; lia. }
  destruct (between 0xF0 0xF4 b0) eqn:E4; [|discriminate].
  destruct r0 as [|b1 [|b2 [|b3 r3]]]; try discriminate.
  destruct (second4 b0 b1 && cont b2 && cont b3) eqn:C; [|discriminate].
  eapply step; [| |exact H]; [cbn; lia|].
  apply scalar_spec. unfold second4 in C.
  destruct (b0 =? 0xF0) eqn:A0; [|destruct (b0 =? 0xF4) eqn:A1];
    bounds; lia.
Qed.

(** The encoder accepts every text made of scalar values. *)
Lemma utf8_encode1_scalar c :
  scalar c = true -> exists bs, utf8_encode1 c = Some bs.
Proof.
  intro H. apply scalar_spec in H. unfold utf8_encode1.
  destruct (c <? 0x80); [eauto|].
  destruct (c <? 0x800); [eauto|].
  destruct (c <? 0x10000) eqn:E.
  - destruct (between 0xD800 0xDFFF c) eqn:B; [|eauto].
    bounds. lia.
  - destruct (c <=? 0x10FFFF) eqn:B; [eauto|]. bounds. lia.
Qed.

Lemma utf8_encode_scalars t :
  scalars t = true -> exists bs, utf8_encode t = Some bs.
Proof.
  induction t as [|c t IH]; intro H; [now exists []|].
  unfold scalars in H. cbn [forallb] in H.
  apply andb_true_iff in H. destruct H as [Hc Ht].
  destruct (utf8_encode1_scalar c Hc) as [bs Hbs].
  destruct (IH Ht) as [rs Hrs].
  exists (bs ++ rs). cbn [utf8_encode]. now rewrite Hbs, Hrs.
Qed.

Lemma encode_scalars t :
  scalars t = true -> exists bs, encode t = Some bs.
Proof.
  intro H. destruct (utf8_encode_scalars t H) as [bs Hbs].
  exists (map byte_of_N bs). unfold encode. now rewrite Hbs.
Qed.

(** The newline translations keep a text made of scalar values so. *)
Lemma universal_newlines_scalars t :
  scalars t = true -> scalars (universal_newlines t) = true.
Proof.
  remember (List.length t) as n eqn:Hn. revert t Hn.
  induction n as [n IH] using lt_wf_ind. intros t -> H.
  destruct t as [|c r]; [reflexivity|].
  unfold scalars in H. cbn [forallb] in H.
  apply andb_true_iff in H. destruct H as [Hc Hr].
  cbn [universal_newlines].
  destruct (c =? CR).
  - apply scalars_cons; [reflexivity|].
    destruct r as [|c' r'].
    + reflexivity.
    + destruct (c' =? LF).
      * cbn [forallb] in Hr. apply andb_true_iff in Hr.
        eapply IH; [|reflexivity|apply Hr]. cbn. lia.
      * eapply IH; [|reflexivity|exact Hr]. cbn. lia.
  - apply scalars_cons; [exact Hc|].
    eapply IH; [|reflexivity|exact Hr]. cbn. lia.
Qed.

Lemma translate_newlines_scalars os t :
  scalars t = true -> scalars (translate_newlines os t) = true.
Proof.
  unfold translate_newlines, scalars.
  induction t as [|c t IH]; intro H; [reflexivity|].
  cbn [forallb flat_map] in *. apply andb_true_iff in H.
  destruct H as [Hc Ht]. rewrite forallb_app, (IH Ht), andb_true_r.
  destruct (c =? LF).
  - now destruct os.
  - cbn [forallb]. now rewrite Hc.
Qed.

(** Encoding gives back the bytes that were decoded. *)
Ltac div_mod :=
  repeat match goal with
  | |- context [ ?a / ?b ] =>
      let q := fresh "q" in let r := fresh "r" in
      pose proof (N.div_mod a b ltac:(discriminate));
      pose proof (N.mod_lt a b ltac:(discriminate));
      set (q := a / b) in *; set (r := a mod b) in *; clearbody q r
  | |- context [ ?a mod ?b ] =>
      let q := fresh "q" in let r := fresh "r" in
      pose proof (N.div_mod a b ltac:(discriminate));
      pose proof (N.mod_lt a b ltac:(discriminate));
      set (q := a / b) in *; set (r := a mod b) in *; clearbody q r
  end.








Lemma translate_newlines_posix t : translate_newlines Posix t = t.
Proof.
  unfold translate_newlines. induction t as [|c t IH]; [reflexivity|].
  cbn [flat_map]. rewrite IH.
  destruct (N.eqb_spec c LF) as [->|]; reflexivity.
Qed.

(** A substitution with a template of scalar values keeps scalar
    values. *)
Lemma scalars_app u v :
  scalars (u ++ v) = scalars u && scalars v.
Proof. apply forallb_app. Qed.

Lemma scalars_firstn n t : scalars t = true -> scalars (firstn n t) = true.
Proof.
  revert n. induction t as [|c t IH]; intros [|n] H; try reflexivity.
  cbn [firstn]. unfold scalars in *. cbn [forallb] in *.
  apply andb_true_iff in H. destruct H as [Hc Ht].
  rewrite Hc. now apply IH.
Qed.

Lemma scalars_skipn n t : scalars t = true -> scalars (skipn n t) = true.
Proof.
  revert n. induction t as [|c t IH]; intros [|n] H; try assumption.
  cbn [skipn]. unfold scalars in H. cbn [forallb] in H.
  apply andb_true_iff in H. now apply IH.
Qed.

Lemma expand_scalars tpl g :
  template_scalars tpl = true -> scalars g = true ->
  scalars (expand tpl g) = true.
Proof.
  intros Ht Hg. unfold expand, template_scalars in *.
  induction tpl as [|it tpl IH]; [reflexivity|].
  cbn [forallb flat_map] in *. apply andb_true_iff in Ht.
  destruct Ht as [Hit Ht]. rewrite scalars_app, (IH Ht), andb_true_r.
  destruct it as [|c]; [exact Hg|]. unfold scalars. cbn [forallb].
  now rewrite Hit.
Qed.

Lemma sub_from_scalars p tpl s :
  template_scalars tpl = true -> scalars s = true ->
  forall k, scalars (sub_from p tpl k s) = true.
Proof.
  intros Ht. induction s as [|c s IH]; intros Hs k.
  - cbn [sub_from]. destruct k; [|reflexivity].
    destruct (match_at p []); [|reflexivity].
    apply expand_scalars; [exact Ht|]. unfold group1.
    now apply scalars_firstn, scalars_skipn.
  - assert (Hs' : scalars s = true).
    { unfold scalars in Hs. cbn [forallb] in Hs.
      now apply andb_true_iff in Hs. }
    assert (Hc : scalar c = true).
    { unfold scalars in Hs. cbn [forallb] in Hs.
      now apply andb_true_iff in Hs. }
    cbn [sub_from]. destruct k as [|k]; [|now apply IH].
    destruct (match_at p (c :: s)) as [m|].
    + rewrite scalars_app. apply andb_true_iff. split.
      * apply expand_scalars; [exact Ht|]. unfold group1.
        now apply scalars_firstn, scalars_skipn.
      * destruct (m_end m); [|now apply IH].
        apply scalars_cons; [exact Hc|now apply IH].
    + apply scalars_cons; [exact Hc|now apply IH].
Qed.

Lemma transform_scalars t :
  scalars t = true -> scalars (transform t) = true.
Proof.
  intro H. unfold transform, add_logs_after_import, remove_early_logs, sub.
  apply sub_from_scalars; [vm_compute; reflexivity|].
  apply sub_from_scalars; [vm_compute; reflexivity|exact H].
Qed.

End Codec.

(** ** Writing and reading back *)

Section ReadBack.

Local Open Scope N_scope.

Ltac ranges :=
  repeat match goal with
  | H : _ && _ = true |- _ => apply andb_true_iff in H; destruct H
  | H : between _ _ _ = true |- _ => apply between_spec in H
  | H : between _ _ _ = false |- _ =>
      unfold between in H; apply andb_false_iff in H; destruct H
  | H : (_ <? _) = true |- _ => apply N.ltb_lt in H
  | H : (_ <? _) = false |- _ => apply N.ltb_ge in H
  | H : (_ <=? _) = true |- _ => apply N.leb_le in H
  | H : (_ <=? _) = false |- _ => apply N.leb_gt in H
  | H : (_ =? _) = true |- _ => apply N.eqb_eq in H
  | H : (_ =? _) = false |- _ => apply N.eqb_neq in H
  end.

Ltac quot_rem :=
  repeat match goal with
  | |- context [ ?a / ?b ] =>
      let q := fresh "q" in let r := fresh "r" in
      pose proof (N.div_mod a b ltac:(discriminate));
      pose proof (N.mod_lt a b ltac:(discriminate));
      set (q := a / b) in *; set (r := a mod b) in *; clearbody q r
  | |- context [ ?a mod ?b ] =>
      let q := fresh "q" in let r := fresh "r" in
      pose proof (N.div_mod a b ltac:(discriminate));
      pose proof (N.mod_lt a b ltac:(discriminate));
      set (q := a / b) in *; set (r := a mod b) in *; clearbody q r
  | _ : context [ ?a / ?b ] |- _ =>
      let q := fresh "q" in let r := fresh "r" in
      pose proof (N.div_mod a b ltac:(discriminate));
      pose proof (N.mod_lt a b ltac:(discriminate));
      set (q := a / b) in *; set (r := a mod b) in *; clearbody q r
  end.

(** The bytes of one encoded code point, by the tests of the decoder. *)
Lemma between_intro lo hi b : lo <= b <= hi -> between lo hi b = true.
Proof. intro H. now apply between_spec. Qed.

Lemma utf8_encode1_cases c bs :
  utf8_encode1 c = Some bs ->
  (c < 0x80 /\ bs = [c])
  \/ (exists b0 b1, bs = [b0; b1] /\ between 0xC2 0xDF b0 = true
        /\ cont b1 = true /\ c = (b0 - 0xC0) * 64 + (b1 - 0x80))
  \/ (exists b0 b1 b2, bs = [b0; b1; b2] /\ between 0xE0 0xEF b0 = true
        /\ second3 b0 b1 = true /\ cont b2 = true
        /\ c = (b0 - 0xE0) * 4096 + (b1 - 0x80) * 64 + (b2 - 0x80))
  \/ (exists b0 b1 b2 b3, bs = [b0; b1; b2; b3]
        /\ between 0xF0 0xF4 b0 = true
        /\ second4 b0 b1 = true /\ cont b2 = true /\ cont b3 = true
        /\ c = (b0 - 0xF0) * 262144 + (b1 - 0x80) * 4096
               + (b2 - 0x80) * 64 + (b3 - 0x80)).
Proof.
  unfold utf8_encode1.
  destruct (c <? 0x80) eqn:E0.
  { intros [= <-]. left. ranges. auto. }
  destruct (c <? 0x800) eqn:E1.
  { intros [= <-]. right. left. ranges.
    exists (0xC0 + c / 64), (0x80 + c mod 64).
    split; [reflexivity|]. unfold cont.
    repeat split; try apply between_intro; quot_rem; lia. }
  destruct (c <? 0x10000) eqn:E2.
  { destruct (between 0xD800 0xDFFF c) eqn:E3; [discriminate|].
    intros [= <-]. right. right. left.
    exists (0xE0 + c / 4096), (0x80 + (c / 64) mod 64), (0x80 + c mod 64).
    split; [reflexivity|]. unfold cont, second3.
    assert (B : between 0xE0 0xEF (0xE0 + c / 4096) = true)
      by (apply between_intro; ranges; quot_rem; lia).
    split; [exact B|]. split; [|split].
    - destruct (0xE0 + c / 4096 =? 0xE0) eqn:A0;
        [|destruct (0xE0 + c / 4096 =? 0xED) eqn:A1];
        apply between_intro; ranges; quot_rem; lia.
    - apply between_intro; quot_rem; lia.
    - ranges; quot_rem; lia. }
  destruct (c <=? 0x10FFFF) eqn:E3; [|discriminate].
  intros [= <-]. right. right. right.
  exists (0xF0 + c / 262144), (0x80 + (c / 4096) mod 64),
         (0x80 + (c / 64) mod 64), (0x80 + c mod 64).
  split; [reflexivity|]. unfold cont, second4.
  split; [apply between_intro; ranges; quot_rem; lia|].
  split; [|split; [|split]].
  - destruct (0xF0 + c / 262144 =? 0xF0) eqn:A0;
      [|destruct (0xF0 + c / 262144 =? 0xF4) eqn:A1];
      apply between_intro; ranges; quot_rem; lia.
  - apply between_intro; quot_rem; lia.
  - apply between_intro; quot_rem; lia.
  - ranges; quot_rem; lia.
Qed.

Lemma second3_cont b0 b1 : second3 b0 b1 = true -> b1 <= 0xBF.
Proof.
  unfold second3, cont.
  destruct (b0 =? 0xE0); [|destruct (b0 =? 0xED)]; intro H; ranges; lia.
Qed.

Lemma second4_cont b0 b1 : second4 b0 b1 = true -> b1 <= 0xBF.
Proof.
  unfold second4, cont.
  destruct (b0 =? 0xF0); [|destruct (b0 =? 0xF4)]; intro H; ranges; lia.
Qed.

(** Decoding what was encoded gives the code point back. *)
Lemma utf8_decode_encode1 c bs r :
  utf8_encode1 c = Some bs ->
  utf8_decode (bs ++ r) = option_map (cons c) (utf8_decode r).
Proof.
  intro H. apply utf8_encode1_cases in H.
  destruct H as [[Hc ->] | [(b0 & b1 & -> & B0 & B1 & ->)
    | [(b0 & b1 & b2 & -> & B0 & B1 & B2 & ->)
      | (b0 & b1 & b2 & b3 & -> & B0 & B1 & B2 & B3 & ->)]]];
    cbn [app utf8_decode].
  - apply N.ltb_lt in Hc. now rewrite Hc.
  - assert (E0 : (b0 <? 0x80) = false) by (apply N.ltb_ge; ranges; lia).
    now rewrite E0, B0, B1.
  - assert (E0 : (b0 <? 0x80) = false) by (apply N.ltb_ge; ranges; lia).
    assert (E1 : between 0xC2 0xDF b0 = false).
    { unfold between. apply andb_false_iff. right.
      apply N.leb_gt. ranges; lia. }
    now rewrite E0, E1, B0, B1, B2.
  - assert (E0 : (b0 <? 0x80) = false) by (apply N.ltb_ge; ranges; lia).
    assert (E1 : between 0xC2 0xDF b0 = false).
    { unfold between. apply andb_false_iff. right.
      apply N.leb_gt. ranges; lia. }
    assert (E2 : between 0xE0 0xEF b0 = false).
    { unfold between. apply andb_false_iff. right.
      apply N.leb_gt. ranges; lia. }
    now rewrite E0, E1, E2, B0, B1, B2, B3.
Qed.

Lemma utf8_decode_encode t :
  forall bs, utf8_encode t = Some bs -> utf8_decode bs = Some t.
Proof.
  induction t as [|c t IH]; intros bs H; cbn [utf8_encode] in H.
  - now injection H as <-.
  - destruct (utf8_encode1 c) as [b|] eqn:E1; [|discriminate].
    destruct (utf8_encode t) as [rs|] eqn:E2; [|discriminate].
    injection H as <-.
    now rewrite (utf8_decode_encode1 _ _ _ E1), (IH rs eq_refl).
Qed.

(** The encoder writes bytes. *)
Lemma utf8_encode1_bytes c bs :
  utf8_encode1 c = Some bs -> Forall (fun b => b <= 255) bs.
Proof.
  intro H. apply utf8_encode1_cases in H.
  destruct H as [[Hc ->] | [(b0 & b1 & -> & B0 & B1 & _)
    | [(b0 & b1 & b2 & -> & B0 & B1 & B2 & _)
      | (b0 & b1 & b2 & b3 & -> & B0 & B1 & B2 & B3 & _)]]];
    repeat constructor;
    try (apply second3_cont in B1); try (apply second4_cont in B1);
    unfold cont in *; ranges; lia.
Qed.

Lemma utf8_encode_bytes t :
  forall bs, utf8_encode t = Some bs -> Forall (fun b => b <= 255) bs.
Proof.
  induction t as [|c t IH]; intros bs H; cbn [utf8_encode] in H.
  - injection H as <-. constructor.
  - destruct (utf8_encode1 c) as [b|] eqn:E1; [|discriminate].
    destruct (utf8_encode t) as [rs|] eqn:E2; [|discriminate].
    injection H as <-. apply Forall_app. split.
    + now apply utf8_encode1_bytes in E1.
    + now apply IH.
Qed.

Lemma to_N_byte_of_N n : n <= 255 -> Byte.to_N (byte_of_N n) = n.
Proof.
  intro H. unfold byte_of_N. destruct (Byte.of_N n) as [b|] eqn:E.
  - now apply Byte.to_of_N.
  - apply Byte.of_N_None_iff in E. lia.
Qed.

Lemma decode_encode t bs : encode t = Some bs -> decode bs = Some t.
Proof.
  unfold encode, decode. destruct (utf8_encode t) as [ns|] eqn:E;
    [|discriminate].
  intros [= <-]. rewrite map_map.
  replace (map (fun n => Byte.to_N (byte_of_N n)) ns) with ns.
  - now apply utf8_decode_encode.
  - apply utf8_encode_bytes in E. induction E as [|n ns Hn _ IH];
      [reflexivity|].
    cbn [map]. now rewrite (to_N_byte_of_N _ Hn), <- IH.
Qed.

(** A text without carriage returns comes back from the newline
    translations as it was, on either platform. *)
Lemma universal_newlines_translate os t :
  avoids CR t = true ->
  universal_newlines (translate_newlines os t) = t.
Proof.
  unfold translate_newlines, avoids.
  induction t as [|c t IH]; intro H; [reflexivity|].
  cbn [forallb flat_map] in *. apply andb_true_iff in H.
  destruct H as [Hc Ht]. apply negb_true_iff in Hc.
  specialize (IH Ht).
  destruct (N.eqb_spec c LF) as [->|Hlf].
  - destruct os; unfold os_linesep at 1; cbn [app universal_newlines].
    + change (LF =? CR) with false. cbv iota. now rewrite IH.
    + change (CR =? CR) with true. change (LF =? LF) with true. cbv iota.
      now rewrite IH.
  - cbn [app universal_newlines]. rewrite Hc. now rewrite IH.
Qed.

(** Reading never gives a carriage return. *)
Lemma universal_newlines_avoids_cr t :
  avoids CR (universal_newlines t) = true.
Proof.
  remember (List.length t) as n eqn:Hn. revert t Hn.
  induction n as [n IH] using lt_wf_ind. intros t ->.
  destruct t as [|c r]; [reflexivity|].
  cbn [universal_newlines].
  destruct (c =? CR) eqn:E.
  - unfold avoids. cbn [forallb]. change (LF =? CR) with false.
    cbn [negb andb].
    destruct r as [|c' r']; [reflexivity|].
    destruct (c' =? LF).
    + apply (IH (List.length r')); [cbn; lia|reflexivity].
    + apply (IH (List.length (c' :: r'))); [cbn; lia|reflexivity].
  - unfold avoids. cbn [forallb]. rewrite E. cbn [negb andb].
    apply (IH (List.length r)); [cbn; lia|reflexivity].
Qed.

End ReadBack.

(** ** Counting the anchors *)

Section Occurrences.

Implicit Types (a s r u v x : text).

Lemma starts_with_iff a s :
  starts_with a s = true <-> exists r, s = a ++ r.
Proof.
  revert s. induction a as [|c a IH]; intro s; cbn [starts_with].
  - split; [intros _; now exists s | reflexivity].
  - destruct s as [|y s].
    + split; [discriminate | intros [r H]; discriminate].
    + rewrite andb_true_iff, IH, N.eqb_eq. split.
      * intros [-> [r ->]]. now exists r.
      * intros [r [= -> ->]]. split; [reflexivity | now exists r].
Qed.

Lemma starts_with_agree a v r :
  starts_with a (v ++ r) = true -> agree a v = true.
Proof.
  revert v. induction a as [|c a IH]; intros [|y v] H;
    cbn [agree]; try reflexivity.
  cbn [app starts_with] in H. apply andb_true_iff in H.
  destruct H as [-> H]. now rewrite (IH _ H).
Qed.

(** Nothing begins inside a clean text. *)
Lemma occurrences_clean a v r :
  clean a v = true -> occurrences a (v ++ r) = occurrences a r.
Proof.
  induction v as [|c v IH]; intro H; [reflexivity|].
  cbn [clean] in H. apply andb_true_iff in H. destruct H as [Hc Hv].
  apply negb_true_iff in Hc. cbn [app occurrences].
  destruct (starts_with a (c :: v ++ r)) eqn:E.
  - apply (starts_with_agree a (c :: v) r) in E. congruence.
  - now rewrite IH.
Qed.

End Occurrences.

Section AnchorCount.

Variables a b : text.
Hypothesis a_borderless : borderless a = true.
Hypothesis a_nonempty : 0 < List.length a.

Implicit Types (s r x v u : text).

Let ip := anchor_pattern a.
Let it := anchor_template b.

Lemma anchor_matches_starts s : matches ip s = starts_with a s.
Proof.
  destruct (starts_with a s) eqn:E.
  - apply anchor_matches_iff. now apply starts_with_iff.
  - destruct (matches ip s) eqn:M; [|reflexivity].
    apply anchor_matches_iff, starts_with_iff in M. congruence.
Qed.

Lemma occurrences_absent_before x s :
  absent_before ip x s = true ->
  occurrences a (x ++ s) = occurrences a s.
Proof.
  induction x as [|c x IH]; intro H; [reflexivity|].
  cbn [absent_before] in H. apply andb_true_iff in H.
  destruct H as [Hc Hx]. apply negb_true_iff in Hc.
  rewrite anchor_matches_starts in Hc.
  cbn [app occurrences] in *. now rewrite Hc, IH.
Qed.

Lemma occurrences_absent s :
  occurs ip s = false -> occurrences a s = 0.
Proof.
  induction s as [|c s IH]; cbn [occurs occurrences].
  - rewrite anchor_matches_starts. now intros ->.
  - rewrite anchor_matches_starts. intro H.
    apply orb_false_iff in H. destruct H as [-> H]. now rewrite IH.
Qed.

(** Nothing begins inside an occurrence of the anchor. *)
Lemma occurrences_inside u v r :
  u <> [] -> u ++ v = a ->
  occurrences a (v ++ r) = occurrences a r.
Proof.
  revert u. induction v as [|c v IH]; intros u Hu Ha; [reflexivity|].
  cbn [app occurrences].
  destruct (starts_with a (c :: v ++ r)) eqn:E.
  - exfalso. apply starts_with_iff in E. destruct E as [r' E].
    apply (borderless_no_overlap a a_borderless a_nonempty u r' r).
    + apply (f_equal (@List.length N)) in Ha. rewrite length_app in Ha.
      cbn [List.length] in Ha. destruct u; [congruence|].
      cbn [List.length] in *. lia.
    + rewrite <- E. change (c :: v ++ r) with ((c :: v) ++ r).
      now rewrite app_assoc, Ha.
  - cbn [Nat.add]. apply (IH (u ++ [c])).
    + destruct u; discriminate.
    + now rewrite <- app_assoc.
Qed.

Lemma occurrences_at_anchor r :
  occurrences a (a ++ r) = S (occurrences a r).
Proof.
  assert (H : exists c a', a = c :: a').
  { clear - a_nonempty. destruct a; [cbn in a_nonempty; lia | eauto]. }
  destruct H as (c & a' & Ea).
  rewrite Ea at 2. cbn [app occurrences].
  assert (E : starts_with a (c :: a' ++ r) = true).
  { apply starts_with_iff. exists r. now rewrite Ea. }
  rewrite E. cbn [Nat.add]. f_equal.
  apply (occurrences_inside [c] a' r); [discriminate|now rewrite Ea].
Qed.

(** One block for every occurrence. *)
Lemma sub_anchor_length_occurrences s :
  List.length (sub ip it s)
  = List.length s + List.length b * occurrences a s.
Proof.
  remember (List.length s) as n eqn:Hn. revert s Hn.
  induction n as [n IH] using lt_wf_ind. intros s ->.
  destruct (occurs ip s) eqn:E.
  - apply occurs_first in E. destruct E as (x & r & -> & Hx & Hr).
    apply anchor_matches_iff in Hr. destruct Hr as [r' ->].
    rewrite (sub_absent_before _ _ _ _ Hx), (sub_at_anchor a b a_nonempty).
    rewrite (occurrences_absent_before _ _ Hx), occurrences_at_anchor.
    assert (H : List.length (sub ip it r')
                = List.length r' + List.length b * occurrences a r').
    { apply (IH (List.length r')); [|reflexivity]. list_len. }
    revert H. repeat (rewrite length_app || cbn [List.length]).
    unfold ip, it. intro H. nia.
  - rewrite (sub_absent _ _ _ E), (occurrences_absent _ E). lia.
Qed.

Lemma occurrences_occurs s :
  occurs ip s = true -> 0 < occurrences a s.
Proof.
  intro E. apply occurs_first in E. destruct E as (x & r & -> & Hx & Hr).
  apply anchor_matches_iff in Hr. destruct Hr as [r' ->].
  rewrite (occurrences_absent_before _ _ Hx), occurrences_at_anchor. lia.
Qed.

(** The occurrences stay, and a clean block brings no new one. *)
Hypothesis b_clean : clean a b = true.

Lemma starts_with_long u r :
  List.length a <= List.length u ->
  starts_with a (u ++ r) = starts_with a u.
Proof.
  clear. revert u. induction a as [|c a' IH]; intros u H; [reflexivity|].
  destruct u as [|y u]; cbn [List.length] in H; [lia|].
  cbn [app starts_with]. rewrite IH by lia. reflexivity.
Qed.

Lemma absent_before_rest x r1 r2 :
  absent_before ip x (a ++ r1) = true ->
  absent_before ip x (a ++ r2) = true.
Proof.
  induction x as [|c x IH]; [reflexivity|].
  cbn [absent_before]. rewrite !andb_true_iff, !negb_true_iff.
  intros [Hc Hx]. split; [|now apply IH].
  rewrite anchor_matches_starts in *.
  rewrite app_assoc in *.
  rewrite starts_with_long in * by (list_len).
  exact Hc.
Qed.

Lemma sub_anchor_occurrences s :
  occurrences a (sub ip it s) = occurrences a s.
Proof.
  remember (List.length s) as n eqn:Hn. revert s Hn.
  induction n as [n IH] using lt_wf_ind. intros s ->.
  destruct (occurs ip s) eqn:E.
  - apply occurs_first in E. destruct E as (x & r & -> & Hx & Hr).
    apply anchor_matches_iff in Hr. destruct Hr as [r' ->].
    rewrite (sub_absent_before _ _ _ _ Hx), (sub_at_anchor a b a_nonempty).
    rewrite (occurrences_absent_before _ _ Hx).
    rewrite (occurrences_absent_before x _
               (absent_before_rest x r' _ Hx)).
    rewrite !occurrences_at_anchor, (occurrences_clean _ _ _ b_clean).
    f_equal. apply (IH (List.length r')); [|reflexivity]. list_len.
  - now rewrite (sub_absent _ _ _ E).
Qed.

End AnchorCount.

(** ** What a substitution keeps *)

Section Keeps.

Variable P : N -> bool.

Lemma forallb_firstn n (t : text) :
  forallb P t = true -> forallb P (firstn n t) = true.
Proof.
  revert n. induction t as [|c t IH]; intros [|n] H; try reflexivity.
  cbn [firstn forallb] in *. apply andb_true_iff in H.
  destruct H as [-> Ht]. now rewrite IH.
Qed.

Lemma forallb_skipn n (t : text) :
  forallb P t = true -> forallb P (skipn n t) = true.
Proof.
  revert n. induction t as [|c t IH]; intros [|n] H; try assumption.
  cbn [skipn forallb] in *. apply andb_true_iff in H. now apply IH.
Qed.

Lemma expand_forallb tpl g :
  template_all P tpl = true -> forallb P g = true ->
  forallb P (expand tpl g) = true.
Proof.
  intros Ht Hg. unfold expand, template_all in *.
  induction tpl as [|it tpl IH]; [reflexivity|].
  cbn [forallb flat_map] in *. apply andb_true_iff in Ht.
  destruct Ht as [Hit Ht]. rewrite forallb_app, (IH Ht), andb_true_r.
  destruct it as [|c]; [exact Hg|]. cbn [forallb]. now rewrite Hit.
Qed.

(** When every character of the text and of the template satisfies
    [P], so does every character of the result. *)
Lemma sub_from_forallb p tpl s :
  template_all P tpl = true -> forallb P s = true ->
  forall k, forallb P (sub_from p tpl k s) = true.
Proof.
  intros Ht. induction s as [|c s IH]; intros Hs k.
  - cbn [sub_from]. destruct k; [|reflexivity].
    destruct (match_at p []); [|reflexivity].
    apply expand_forallb; [exact Ht|]. unfold group1.
    now apply forallb_firstn, forallb_skipn.
  - cbn [forallb] in Hs. apply andb_true_iff in Hs. destruct Hs as [Hc Hs].
    cbn [sub_from]. destruct k as [|k]; [|now apply IH].
    destruct (match_at p (c :: s)) as [m|].
    + rewrite forallb_app. apply andb_true_iff. split.
      * apply expand_forallb; [exact Ht|]. unfold group1.
        apply forallb_firstn, forallb_skipn. cbn [forallb].
        now rewrite Hc.
      * destruct (m_end m); [|now apply IH].
        cbn [forallb]. rewrite Hc. now apply IH.
    + cbn [forallb]. rewrite Hc. now apply IH.
Qed.

End Keeps.

(** The transformation brings no carriage return. *)
Lemma transform_avoids_cr t :
  avoids CR t = true -> avoids CR (transform t) = true.
Proof.
  intro H. unfold transform, add_logs_after_import, remove_early_logs, sub.
  unfold avoids in *.
  apply sub_from_forallb; [vm_compute; reflexivity|].
  apply sub_from_forallb; [vm_compute; reflexivity|exact H].
Qed.

(** ** The removal pass only deletes *)

Section RemovalLength.

Implicit Types (s r x : text).

Lemma removal_first_site s :
  occurs removal_pattern s = true ->
  exists x w1 w2 w3 w4 r,
    wild w1 = true /\ wild w2 = true /\ wild w3 = true /\ wild w4 = true
    /\ s = x ++ removal_site [w1; w2; w3; w4] ++ r
    /\ absent_before removal_pattern x (removal_site [w1; w2; w3; w4] ++ r)
       = true.
Proof.
  intro H. apply occurs_first in H. destruct H as (x & r & -> & Hx & Hr).
  unfold matches in Hr.
  destruct (match_at removal_pattern r) as [m|] eqn:E; [|discriminate].
  apply removal_match_inv in E.
  destruct E as (w1 & w2 & w3 & w4 & r' & H1 & H2 & H3 & H4 & -> & _).
  exists x, w1, w2, w3, w4, r'. auto 10.
Qed.

Lemma site_length_anchor ws :
  List.length alarm_anchor + 2 <= List.length (removal_site ws).
Proof. unfold removal_site. list_len. Qed.

Lemma removal_length s :
  List.length (remove_early_logs s) <= List.length s.
Proof.
  remember (List.length s) as n eqn:Hn. revert s Hn.
  induction n as [n IH] using lt_wf_ind. intros s ->.
  destruct (occurs removal_pattern s) eqn:E.
  - apply removal_first_site in E.
    destruct E as (x & w1 & w2 & w3 & w4 & r & H1 & H2 & H3 & H4 & -> & Hx).
    rewrite (removal_absent_before _ _ Hx).
    rewrite removal_at_site by assumption.
    assert (H : List.length (remove_early_logs r) <= List.length r).
    { apply (IH (List.length r)); [|reflexivity].
      pose proof (site_length_anchor [w1; w2; w3; w4]). list_len. }
    pose proof (site_length_anchor [w1; w2; w3; w4]).
    revert H. list_len.
  - now rewrite removal_absent.
Qed.

Lemma removal_shortens s :
  occurs removal_pattern s = true ->
  List.length (remove_early_logs s) < List.length s.
Proof.
  intro E. apply removal_first_site in E.
  destruct E as (x & w1 & w2 & w3 & w4 & r & H1 & H2 & H3 & H4 & -> & Hx).
  rewrite (removal_absent_before _ _ Hx).
  rewrite removal_at_site by assumption.
  pose proof (removal_length r) as H.
  pose proof (site_length_anchor [w1; w2; w3; w4]).
  revert H. list_len.
Qed.

End RemovalLength.

(** ** Lines that begin with a closing brace *)

(** Both anchors end at a line that begins with a closing brace, and no
    line of a diagnostic block does: a text without such a line, found
    at the beginning of another, ends before the first such line of
    it. *)

(** A beginning of a concatenation that is no longer than the first
    part is a beginning of that part. *)
Lemma app_prefix {A} (xs ys ms rs : list A) :
  xs ++ ys = ms ++ rs -> List.length ms <= List.length xs ->
  exists xs', xs = ms ++ xs' /\ rs = xs' ++ ys.
Proof.
  revert ms. induction xs as [|a xs IH]; intros ms E L.
  - destruct ms; [|cbn in L; lia]. exists []. cbn in *. auto.
  - destruct ms as [|b ms].
    + exists (a :: xs). cbn in *. auto.
    + cbn [app] in E. injection E as <- E. cbn [List.length] in L.
      destruct (IH ms E ltac:(lia)) as (xs' & -> & ->). exists xs'. auto.
Qed.

Section Barrier.

Implicit Types (M c Z R l rest t u v : text).

(** The test, one character at a time; characters other than a newline
    pass, and after a newline the next character decides. *)
Lemma nnb_cons x t :
  no_newline_brace (x :: t)
  = negb (N.eqb x LF && N.eqb (hd 0%N t) RBRACE) && no_newline_brace t.
Proof.
  destruct t as [|y t]; [|reflexivity].
  cbn [no_newline_brace hd]. now destruct (N.eqb x LF).
Qed.

Lemma nnb_free l rest :
  avoids LF l = true ->
  no_newline_brace (l ++ rest) = no_newline_brace rest.
Proof.
  induction l as [|x l IH]; intro H; [reflexivity|].
  unfold avoids in H. cbn [forallb] in H.
  apply andb_true_iff in H. destruct H as [Hx Hl].
  apply negb_true_iff in Hx.
  cbn [app]. rewrite nnb_cons, Hx. cbn [andb negb]. now apply IH.
Qed.

Lemma nnb_line l rest :
  avoids LF l = true ->
  no_newline_brace (l ++ [LF] ++ rest)
  = negb (N.eqb (hd 0%N rest) RBRACE) && no_newline_brace rest.
Proof.
  intro H. rewrite (nnb_free _ _ H). cbn [app]. rewrite nnb_cons.
  now rewrite N.eqb_refl.
Qed.

(** A text in which no newline is followed by a closing brace, found at
    the beginning of a text, ends at the first newline that is. *)
Lemma barrier M : forall c Z R,
  no_newline_brace M = true ->
  c ++ [LF; RBRACE] ++ Z = M ++ R ->
  List.length M <= List.length c + 1.
Proof.
  induction M as [|x M IH]; intros c Z R HM E; [cbn; lia|].
  destruct c as [|y c].
  - cbn [app] in E. injection E as <- E.
    destruct M as [|x' M]; [cbn; lia|].
    cbn [app] in E. injection E as <- E.
    rewrite nnb_cons in HM. cbn [hd] in HM.
    rewrite !N.eqb_refl in HM. discriminate.
  - cbn [app] in E. injection E as <- E.
    rewrite nnb_cons in HM. apply andb_true_iff in HM.
    destruct HM as [_ HM].
    specialize (IH c Z R HM E). cbn [List.length]. lia.
Qed.

Lemma barrier_prefix M c Z R :
  no_newline_brace M = true ->
  c ++ [LF; RBRACE] ++ Z = M ++ R ->
  exists c', c ++ [LF] = M ++ c' /\ R = c' ++ [RBRACE] ++ Z.
Proof.
  intros HM E. pose proof (barrier M c Z R HM E) as L.
  apply (app_prefix (c ++ [LF]) ([RBRACE] ++ Z) M R).
  - rewrite <- E. now rewrite <- app_assoc.
  - rewrite length_app. cbn [List.length]. lia.
Qed.

End Barrier.

Section Lines.

Implicit Types (M c Z R l rest t u v h w : text).

(** The two anchors, line by line. *)
Lemma alarm_anchor_lines :
  alarm_anchor = alarm_line ++ [LF; RBRACE] ++ [59%N].
Proof. vm_compute. reflexivity. Qed.

Lemma firefox_anchor_lines :
  firefox_anchor = firefox_line ++ [LF; RBRACE].
Proof. vm_compute. reflexivity. Qed.

Lemma avoids_app (n : N) u v :
  avoids n (u ++ v) = avoids n u && avoids n v.
Proof. apply forallb_app. Qed.

Lemma nnb_diag_line h w rest :
  avoids LF h = true -> wild w = true ->
  no_newline_brace (diag_line h w ++ rest)
  = negb (N.eqb (hd 0%N rest) RBRACE) && no_newline_brace rest.
Proof.
  intros Hh Hw. apply wild_avoids in Hw. destruct Hw as [_ Hw].
  unfold diag_line. rewrite <- !app_assoc, app_assoc.
  apply nnb_line. now rewrite avoids_app, Hh, Hw.
Qed.

Lemma hd_diag_line h w rest :
  N.eqb (hd 0%N h) 99 = true -> hd 0%N (diag_line h w ++ rest) = 99%N.
Proof.
  intro H. destruct h as [|c h]; [discriminate|].
  cbn [hd] in *. now apply N.eqb_eq in H.
Qed.

(** The four fixed beginnings hold no newline and begin with [c]. *)
Lemma head_facts :
  (avoids LF head_script = true /\ N.eqb (hd 0%N head_script) 99 = true)
  /\ (avoids LF head_extension = true
      /\ N.eqb (hd 0%N head_extension) 99 = true)
  /\ (avoids LF head_chrome = true /\ N.eqb (hd 0%N head_chrome) 99 = true)
  /\ (avoids LF head_web = true /\ N.eqb (hd 0%N head_web) 99 = true).
Proof. vm_compute. repeat split. Qed.

Lemma diag_block_app w1 w2 w3 w4 rest :
  diag_block [w1; w2; w3; w4] ++ rest
  = diag_line head_script w1 ++ diag_line head_extension w2
    ++ diag_line head_chrome w3 ++ diag_line head_web w4 ++ rest.
Proof. rewrite diag_block_lines. now rewrite <- !app_assoc. Qed.

Lemma nnb_diag_line_next h w h' w' rest :
  avoids LF h = true -> wild w = true ->
  N.eqb (hd 0%N h') 99 = true ->
  no_newline_brace (diag_line h w ++ diag_line h' w' ++ rest)
  = no_newline_brace (diag_line h' w' ++ rest).
Proof.
  intros Hh Hw Hc. rewrite (nnb_diag_line _ _ _ Hh Hw).
  destruct h' as [|c h']; [discriminate|].
  cbn [hd] in Hc. apply N.eqb_eq in Hc. subst c. reflexivity.
Qed.

(** No line of a diagnostic block begins with a closing brace, whatever
    follows the block. *)
Lemma nnb_diag_block w1 w2 w3 w4 rest :
  wild w1 = true -> wild w2 = true -> wild w3 = true -> wild w4 = true ->
  no_newline_brace (diag_block [w1; w2; w3; w4] ++ rest)
  = negb (N.eqb (hd 0%N rest) RBRACE) && no_newline_brace rest.
Proof.
  intros H1 H2 H3 H4.
  destruct head_facts as ((A1 & B1) & (A2 & B2) & (A3 & B3) & (A4 & B4)).
  rewrite diag_block_app.
  rewrite (nnb_diag_line_next _ _ _ _ _ A1 H1 B2).
  rewrite (nnb_diag_line_next _ _ _ _ _ A2 H2 B3).
  rewrite (nnb_diag_line_next _ _ _ _ _ A3 H3 B4).
  apply (nnb_diag_line _ _ _ A4 H4).
Qed.

Lemma hd_diag_block w1 w2 w3 w4 rest :
  hd 0%N (diag_block [w1; w2; w3; w4] ++ rest) = 99%N.
Proof.
  destruct head_facts as ((_ & B1) & _).
  rewrite diag_block_app.
  now apply hd_diag_line.
Qed.

End Lines.

(** ** Removal sites and closing braces *)

Section Sites.

Implicit Types (M c Z R l rest t u v h w x y r s : text).

Lemma hd_diag_block0 w1 w2 w3 w4 :
  hd 0%N (diag_block [w1; w2; w3; w4]) = 99%N.
Proof.
  rewrite <- (app_nil_r (diag_block _)). apply hd_diag_block.
Qed.

Lemma nnb_diag_block0 w1 w2 w3 w4 :
  wild w1 = true -> wild w2 = true -> wild w3 = true -> wild w4 = true ->
  no_newline_brace (diag_block [w1; w2; w3; w4]) = true.
Proof.
  intros H1 H2 H3 H4. rewrite <- (app_nil_r (diag_block _)).
  now rewrite nnb_diag_block.
Qed.


Lemma site_lines ws :
  removal_site ws
  = (alarm_line ++ [LF]) ++ ([RBRACE; 59%N; LF; LF] ++ diag_block ws).
Proof.
  unfold removal_site. rewrite alarm_anchor_lines.
  rewrite <- !app_assoc. reflexivity.
Qed.

Lemma nnb_alarm_line : no_newline_brace (alarm_line ++ [LF]) = true.
Proof. vm_compute. reflexivity. Qed.

Lemma nnb_site_tail w1 w2 w3 w4 :
  wild w1 = true -> wild w2 = true -> wild w3 = true -> wild w4 = true ->
  no_newline_brace ([RBRACE; 59%N; LF; LF] ++ diag_block [w1; w2; w3; w4])
  = true.
Proof.
  intros H1 H2 H3 H4. cbn [app].
  do 4 rewrite nnb_cons. cbn [hd].
  rewrite hd_diag_block0, nnb_diag_block0 by assumption. reflexivity.
Qed.

(** A removal site that begins before a line with a closing brace, not
    its own, ends before that line. *)
Lemma site_barrier w1 w2 w3 w4 c Z R :
  wild w1 = true -> wild w2 = true -> wild w3 = true -> wild w4 = true ->
  c ++ [LF; RBRACE] ++ Z = removal_site [w1; w2; w3; w4] ++ R ->
  hd 0%N Z <> 59%N \/ List.length alarm_line < List.length c ->
  exists c', c ++ [LF] = removal_site [w1; w2; w3; w4] ++ c'.
Proof.
  intros H1 H2 H3 H4 E Hc. rewrite site_lines in *.
  rewrite <- app_assoc in E.
  destruct (barrier_prefix _ _ _ _ nnb_alarm_line E) as (c1 & E1 & E2).
  destruct c1 as [|a c1 _] using rev_ind.
  - exfalso. rewrite app_nil_r in E1. apply app_inj_tail in E1.
    destruct E1 as [-> _]. cbn [app] in E2. injection E2 as E2.
    destruct Z as [|z Z]; [discriminate|]. injection E2 as <- _.
    cbn [hd] in Hc. destruct Hc as [Hc|Hc]; [congruence|lia].
  - rewrite !app_assoc in E1. apply app_inj_tail in E1.
    destruct E1 as [-> <-]. rewrite <- (app_assoc c1) in E2.
    symmetry in E2.
    destruct (barrier_prefix _ _ _ _ (nnb_site_tail _ _ _ _ H1 H2 H3 H4) E2)
      as (c2 & E3 & _).
    exists c2. rewrite <- (app_assoc _ c1), E3.
    now rewrite <- !app_assoc.
Qed.


Lemma insertion_absent_before x s :
  absent_before insertion_pattern x s = true ->
  add_logs_after_import (x ++ s) = x ++ add_logs_after_import s.
Proof. apply sub_absent_before. Qed.


End Sites.

(** ** Texts that the anchor does not overlap *)

Section Separator.

Variables a b sep : text.
Hypothesis a_borderless : borderless a = true.
Hypothesis a_nonempty : 0 < List.length a.
(** The anchor does not begin inside [sep], and [sep] does not begin
    inside the anchor. *)
Hypothesis sep_clean : clean a sep = true.
Hypothesis a_clean : clean sep (tl a) = true.

Implicit Types (s r x pre post : text) (m : mtch).

Let ip := anchor_pattern a.
Let it := anchor_template b.

Lemma clean_app (u v1 v2 : text) :
  clean u (v1 ++ v2) = true -> clean u v2 = true.
Proof.
  induction v1 as [|c v1 IH]; [auto|].
  cbn [app clean]. intro H. apply andb_true_iff in H. now apply IH.
Qed.

Lemma clean_agree (u v1 v2 : text) :
  clean u (v1 ++ v2) = true -> v2 <> [] -> agree u v2 = false.
Proof.
  intros H Hv. apply clean_app in H. destruct v2 as [|c v2]; [congruence|].
  cbn [clean] in H. apply andb_true_iff in H. destruct H as [H _].
  now apply negb_true_iff in H.
Qed.





End Separator.

(** ** The two passes together *)

Section Passes.

Implicit Types (M c Z R l rest t u v h w x y z r s p q : text).

Lemma removal_site_occurs p w1 w2 w3 w4 q :
  wild w1 = true -> wild w2 = true -> wild w3 = true -> wild w4 = true ->
  occurs removal_pattern (p ++ removal_site [w1; w2; w3; w4] ++ q) = true.
Proof.
  intros H1 H2 H3 H4. apply occurs_app, matches_occurs. unfold matches.
  now rewrite removal_match.
Qed.

Lemma removal_site_starts ws q :
  starts_with alarm_anchor (removal_site ws ++ q) = true.
Proof.
  apply starts_with_iff. unfold removal_site.
  rewrite <- app_assoc. eauto.
Qed.

Lemma inserted_block_hd z : hd 0%N (inserted_block ++ z) = LF.
Proof. reflexivity. Qed.

Lemma block_clean_of_alarm :
  clean alarm_anchor (firefox_anchor ++ inserted_block) = true.
Proof. vm_compute. reflexivity. Qed.

(** The insertion pass makes no removal site: where the removal pattern
    occurs after the pass, it occurred before. *)
Lemma insertion_makes_no_site u :
  occurs removal_pattern (add_logs_after_import u) = true ->
  occurs removal_pattern u = true.
Proof.
  remember (List.length u) as n eqn:Hn. revert u Hn.
  induction n as [n IH] using lt_wf_ind. intros u -> H.
  destruct (occurs insertion_pattern u) eqn:O;
    [|now rewrite (insertion_absent _ O) in H].
  apply occurs_first in O. destruct O as (x & r0 & -> & Hx & Hr).
  apply insertion_matches_iff in Hr. destruct Hr as [r1 ->].
  rewrite (insertion_absent_before _ _ Hx), insertion_at_anchor in H.
  apply removal_first_site in H.
  destruct H as (p & w1 & w2 & w3 & w4 & q & H1 & H2 & H3 & H4 & E & _).
  assert (Inside : forall l l', l' <> [] ->
            firefox_anchor ++ inserted_block = l ++ l' ->
            removal_site [w1; w2; w3; w4] ++ q
            = l' ++ add_logs_after_import r1 -> False).
  { intros l l' Hl' El Es.
    pose proof (clean_agree alarm_anchor l l') as C.
    rewrite <- El in C. specialize (C block_clean_of_alarm Hl').
    pose proof (removal_site_starts [w1; w2; w3; w4] q) as St.
    rewrite Es in St. apply starts_with_agree in St. congruence. }
  assert (After : forall l,
            add_logs_after_import r1
            = l ++ removal_site [w1; w2; w3; w4] ++ q ->
            occurs removal_pattern (x ++ firefox_anchor ++ r1) = true).
  { intros l El. rewrite app_assoc. apply occurs_app.
    apply (IH (List.length r1)); [|reflexivity|].
    - pose proof firefox_anchor_nonempty. list_len.
    - rewrite El. now apply removal_site_occurs. }
  destruct (app_eq_app _ _ _ _ E) as [l [[E1 E2] | [E1 E2]]].
  - (* the site begins before the anchor *)
    destruct l as [|c l].
    + exfalso.
      apply (Inside [] (firefox_anchor ++ inserted_block));
        [|reflexivity|].
      * intro N0. apply (f_equal (@List.length N)) in N0.
        rewrite length_app in N0. pose proof firefox_anchor_nonempty.
        cbn [List.length] in N0. lia.
      * rewrite E2. cbn [app]. now rewrite <- app_assoc.
    + rewrite firefox_anchor_lines in E2.
      assert (E3 : ((c :: l) ++ firefox_line) ++ [LF; RBRACE]
                   ++ (inserted_block ++ add_logs_after_import r1)
                   = removal_site [w1; w2; w3; w4] ++ q)
        by (rewrite E2; now rewrite <- !app_assoc).
      destruct (site_barrier w1 w2 w3 w4 _ _ _ H1 H2 H3 H4 E3) as [c' Ec].
      { left. rewrite inserted_block_hd. discriminate. }
      rewrite E1, firefox_anchor_lines.
      replace ((p ++ c :: l) ++ (firefox_line ++ [LF; RBRACE]) ++ r1)
        with (p ++ (((c :: l) ++ firefox_line) ++ [LF]) ++ [RBRACE] ++ r1)
        by (now rewrite <- !app_assoc).
      rewrite Ec, <- app_assoc. now apply removal_site_occurs.
  - (* the site begins at the anchor or after it *)
    rewrite app_assoc in E2.
    destruct (app_eq_app _ _ _ _ E2) as [l2 [[E3 E4] | [E3 E4]]].
    + destruct l2 as [|c2 l2].
      * apply (After []). now rewrite E4.
      * exfalso. apply (Inside l (c2 :: l2)); [discriminate|exact E3|].
        exact E4.
    + apply (After l2). exact E4.
Qed.

Lemma transform_makes_no_site t :
  occurs removal_pattern (remove_early_logs t) = false ->
  occurs removal_pattern (transform t) = false.
Proof.
  intro H. unfold transform.
  destruct (occurs removal_pattern
              (add_logs_after_import (remove_early_logs t))) eqn:E;
    [|reflexivity].
  apply insertion_makes_no_site in E. congruence.
Qed.

End Passes.

(** ** The round trip *)

Section RoundTrip.

Implicit Types (M c Z R l rest t u v h w x y z r s p q : text).





(** Lines are told apart by their newline. *)
Lemma line_split l l' r r' :
  avoids LF l = true -> avoids LF l' = true ->
  l ++ [LF] ++ r = l' ++ [LF] ++ r' -> l = l' /\ r = r'.
Proof.
  revert l'. induction l as [|c l IH]; intros [|c' l'] Hl Hl' E;
    cbn [app] in E.
  - injection E as E. auto.
  - injection E as <- _. discriminate Hl'.
  - injection E as -> _. discriminate Hl.
  - injection E as <- E. unfold avoids in *. cbn [forallb] in *.
    apply andb_true_iff in Hl, Hl'.
    destruct (IH l' (proj2 Hl) (proj2 Hl') E) as [-> ->]. auto.
Qed.

Lemma diag_line_split h w w' r r' :
  wild w = true -> wild w' = true ->
  diag_line h w ++ r = diag_line h w' ++ r' -> w = w' /\ r = r'.
Proof.
  intros Hw Hw' E. apply wild_avoids in Hw, Hw'.
  unfold diag_line in E. rewrite <- !app_assoc in E.
  apply app_inv_head in E. apply line_split; tauto.
Qed.

(** A diagnostic block determines the variable parts of its lines. *)
Lemma diag_block_inj w1 w2 w3 w4 v1 v2 v3 v4 r r' :
  wild w1 = true -> wild w2 = true -> wild w3 = true -> wild w4 = true ->
  wild v1 = true -> wild v2 = true -> wild v3 = true -> wild v4 = true ->
  diag_block [w1; w2; w3; w4] ++ r = diag_block [v1; v2; v3; v4] ++ r' ->
  [w1; w2; w3; w4] = [v1; v2; v3; v4] /\ r = r'.
Proof.
  intros H1 H2 H3 H4 G1 G2 G3 G4 E. rewrite !diag_block_app in E.
  apply diag_line_split in E; [|assumption..]. destruct E as [-> E].
  apply diag_line_split in E; [|assumption..]. destruct E as [-> E].
  apply diag_line_split in E; [|assumption..]. destruct E as [-> E].
  apply diag_line_split in E; [|assumption..]. destruct E as [-> E].
  auto.
Qed.

Lemma inserted_tails_wild : forallb wild inserted_tails = true.
Proof. vm_compute. reflexivity. Qed.

(** Deleting characters. *)
Lemma subsequence_refl s : subsequence s s.
Proof. induction s; constructor; assumption. Qed.

Lemma subsequence_app r1 s1 r2 s2 :
  subsequence r1 s1 -> subsequence r2 s2 ->
  subsequence (r1 ++ r2) (s1 ++ s2).
Proof.
  intros H1 H2. induction H1; cbn [app]; try constructor; assumption.
Qed.

Lemma subsequence_skip d r s :
  subsequence r s -> subsequence r (d ++ s).
Proof.
  intro H. induction d as [|c d IH]; [exact H|].
  cbn [app]. now constructor.
Qed.

(** The removal pass deletes characters and does nothing else. *)
Lemma removal_subsequence s :
  subsequence (remove_early_logs s) s.
Proof.
  remember (List.length s) as n eqn:Hn. revert s Hn.
  induction n as [n IH] using lt_wf_ind. intros s ->.
  destruct (occurs removal_pattern s) eqn:E.
  - apply removal_first_site in E.
    destruct E as (x & w1 & w2 & w3 & w4 & r & H1 & H2 & H3 & H4 & -> & Hx).
    rewrite (removal_absent_before _ _ Hx).
    rewrite removal_at_site by assumption.
    apply subsequence_app; [apply subsequence_refl|].
    unfold removal_site. rewrite <- app_assoc.
    apply subsequence_app; [apply subsequence_refl|].
    change ([LF; LF] ++ diag_block [w1; w2; w3; w4])
      with ([LF] ++ [LF] ++ diag_block [w1; w2; w3; w4]).
    rewrite <- !app_assoc.
    apply subsequence_app; [apply subsequence_refl|].
    rewrite app_assoc. apply subsequence_skip.
    apply (IH (List.length r)); [|reflexivity].
    pose proof (site_length_anchor [w1; w2; w3; w4]). list_len.
  - rewrite removal_absent by exact E. apply subsequence_refl.
Qed.




Lemma anchor_clean_of_alarm : clean alarm_anchor firefox_anchor = true.
Proof. vm_compute. reflexivity. Qed.

Lemma firefox_line_length :
  List.length alarm_line < List.length firefox_line.
Proof. vm_compute. lia. Qed.

(** The insertion pass takes no removal site away. *)
Lemma insertion_keeps_sites u :
  occurs removal_pattern u = true ->
  occurs removal_pattern (add_logs_after_import u) = true.
Proof.
  remember (List.length u) as n eqn:Hn. revert u Hn.
  induction n as [n IH] using lt_wf_ind. intros u -> H.
  destruct (occurs insertion_pattern u) eqn:O;
    [|now rewrite (insertion_absent _ O)].
  apply occurs_first in O. destruct O as (x & r0 & -> & Hx & Hr).
  apply insertion_matches_iff in Hr. destruct Hr as [r1 ->].
  rewrite (insertion_absent_before _ _ Hx), insertion_at_anchor.
  apply removal_first_site in H.
  destruct H as (p & w1 & w2 & w3 & w4 & q & H1 & H2 & H3 & H4 & E & _).
  assert (After : forall l,
            r1 = l ++ removal_site [w1; w2; w3; w4] ++ q ->
            occurs removal_pattern
              (x ++ firefox_anchor ++ inserted_block
               ++ add_logs_after_import r1) = true).
  { intros l El. rewrite !app_assoc. apply occurs_app.
    apply (IH (List.length r1)); [|reflexivity|].
    - pose proof firefox_anchor_nonempty. list_len.
    - rewrite El. now apply removal_site_occurs. }
  assert (Inside : forall l l', l' <> [] ->
            firefox_anchor = l ++ l' ->
            removal_site [w1; w2; w3; w4] ++ q = l' ++ r1 -> False).
  { intros l l' Hl' El Es.
    pose proof (clean_agree alarm_anchor l l') as C.
    rewrite <- El in C. specialize (C anchor_clean_of_alarm Hl').
    pose proof (removal_site_starts [w1; w2; w3; w4] q) as St.
    rewrite Es in St. apply starts_with_agree in St. congruence. }
  destruct (app_eq_app _ _ _ _ E) as [l [[E1 E2] | [E1 E2]]].
  - (* the site begins before the anchor *)
    destruct l as [|c l].
    + exfalso. apply (Inside [] firefox_anchor); [|reflexivity|exact E2].
      intro N0. apply (f_equal (@List.length N)) in N0.
      pose proof firefox_anchor_nonempty. cbn [List.length] in N0. lia.
    + rewrite firefox_anchor_lines in E2.
      assert (E3 : ((c :: l) ++ firefox_line) ++ [LF; RBRACE] ++ r1
                   = removal_site [w1; w2; w3; w4] ++ q)
        by (rewrite E2; now rewrite <- !app_assoc).
      destruct (site_barrier w1 w2 w3 w4 _ _ _ H1 H2 H3 H4 E3) as [c' Ec].
      { right. pose proof firefox_line_length. list_len. }
      rewrite E1, firefox_anchor_lines.
      replace ((p ++ c :: l) ++ (firefox_line ++ [LF; RBRACE])
               ++ inserted_block ++ add_logs_after_import r1)
        with (p ++ (((c :: l) ++ firefox_line) ++ [LF]) ++ [RBRACE]
              ++ inserted_block ++ add_logs_after_import r1)
        by (now rewrite <- !app_assoc).
      rewrite Ec, <- app_assoc. now apply removal_site_occurs.
  - (* the site begins at the anchor or after it *)
    destruct (app_eq_app _ _ _ _ E2) as [l2 [[E3 E4] | [E3 E4]]].
    + destruct l2 as [|c2 l2].
      * apply (After []). now rewrite E4.
      * exfalso. apply (Inside l (c2 :: l2)); [discriminate|exact E3|].
        exact E4.
    + apply (After l2). exact E4.
Qed.

(** The removal pattern occurs after the two passes exactly when it
    occurs after the removal pass. *)
Lemma transform_sites t :
  occurs removal_pattern (transform t)
  = occurs removal_pattern (remove_early_logs t).
Proof.
  unfold transform.
  destruct (occurs removal_pattern (remove_early_logs t)) eqn:E.
  - now apply insertion_keeps_sites.
  - destruct (occurs removal_pattern
                (add_logs_after_import (remove_early_logs t))) eqn:E';
      [|reflexivity].
    apply insertion_makes_no_site in E'. congruence.
Qed.

End RoundTrip.

(** ** Counting the inserted blocks *)

Lemma inserted_block_clean : clean firefox_anchor inserted_block = true.
Proof. vm_compute. reflexivity. Qed.

Lemma insertion_occurrences s :
  occurrences firefox_anchor (add_logs_after_import s)
  = occurrences firefox_anchor s.
Proof.
  rewrite add_logs_anchor.
  apply (sub_anchor_occurrences firefox_anchor inserted_block
           firefox_anchor_borderless firefox_anchor_nonempty
           inserted_block_clean).
Qed.

Lemma insertion_length s :
  List.length (add_logs_after_import s)
  = List.length s
    + List.length inserted_block * occurrences firefox_anchor s.
Proof.
  rewrite add_logs_anchor.
  apply (sub_anchor_length_occurrences firefox_anchor inserted_block
           firefox_anchor_borderless firefox_anchor_nonempty).
Qed.


(** ** The script *)

Section ScriptFacts.

Variable os : platform.

Lemma open_read_ok w f t0 :
  fs w target = Some f -> readable f = true -> decode (data f) = Some t0 ->
  open_read target w = (Ok (universal_newlines t0), w).
Proof. intros Hf Hr Hd. unfold open_read. now rewrite Hf, Hr, Hd. Qed.

Lemma open_read_world w r w' :
  open_read target w = (r, w') -> w' = w.
Proof.
  unfold open_read.
  destruct (fs w target) as [f|]; [|now intros [= _ <-]].
  destruct (readable f); [|now intros [= _ <-]].
  destruct (decode (data f)); now intros [= _ <-].
Qed.

Lemma open_write_stdout content w r w' :
  open_write os target content w = (r, w') ->
  stdout w' = stdout w /\ stdout_encodes w' = stdout_encodes w.
Proof.
  unfold open_write.
  destruct (fs w target) as [f|].
  - destruct (writable f); [|now intros [= _ <-]].
    destruct (encode _); now intros [= _ <-].
  - destruct (encode _); now intros [= _ <-].
Qed.

(** The write on a file that may be written, for a text that can be
    encoded. *)
Lemma open_write_ok content w f bs :
  fs w target = Some f -> writable f = true ->
  encode (translate_newlines os content) = Some bs ->
  open_write os target content w = (Ok tt, rewritten w f bs).
Proof.
  intros Hf Hw Hbs. unfold open_write. now rewrite Hf, Hw, Hbs.
Qed.

(** [print] either writes the line or raises [UnicodeEncodeError]; when
    it is the newline that cannot be encoded, the text has been written
    already. *)
Lemma print_ok s w :
  stdout_accepts w s = true ->
  print s w
  = (Ok tt, World (fs w) (stdout w ++ s ++ [LF]) (stdout_encodes w)).
Proof.
  unfold stdout_accepts. rewrite forallb_app. intro H.
  apply andb_true_iff in H. destruct H as [Hs Hl].
  unfold print, bind, stdout_write. rewrite Hs.
  cbn [fs stdout stdout_encodes]. rewrite Hl.
  now rewrite <- app_assoc.
Qed.

Lemma print_raises s w :
  stdout_accepts w s = false ->
  exists w',
    print s w = (Raise UnicodeEncodeError, w')
    /\ fs w' = fs w /\ stdout_encodes w' = stdout_encodes w
    /\ (stdout w' = stdout w \/ stdout w' = stdout w ++ s).
Proof.
  unfold stdout_accepts. rewrite forallb_app. intro H.
  unfold print, bind, stdout_write.
  destruct (forallb (stdout_encodes w) s) eqn:Hs.
  - cbn [andb] in H. cbn [fs stdout stdout_encodes]. rewrite H.
    eexists. split; [reflexivity|]. cbn [fs stdout stdout_encodes]. auto.
  - exists w. auto.
Qed.

Lemma print_ok_inv s w w' :
  print s w = (Ok tt, w') -> stdout_accepts w s = true.
Proof.
  intro H. destruct (stdout_accepts w s) eqn:E; [reflexivity|].
  destruct (print_raises s w E) as (w'' & H' & _).
  rewrite H' in H. discriminate.
Qed.




(** The script after a successful read. *)
Lemma fix_background_after_read w content :
  open_read target w = (Ok content, w) ->
  fix_background os w
  = (open_write os target (transform content) ;; print confirmation) w.
Proof.
  intro H. unfold fix_background, bind at 1. now rewrite H.
Qed.

(** The script after a successful read and a successful write. *)
Lemma fix_background_after_write w f t0 bs :
  fs w target = Some f ->
  readable f = true -> writable f = true ->
  decode (data f) = Some t0 ->
  encode (translate_newlines os (transform (universal_newlines t0)))
  = Some bs ->
  fix_background os w = print confirmation (rewritten w f bs).
Proof.
  intros Hf Hr Hw Hd Hbs.
  rewrite (fix_background_after_read w _ (open_read_ok w f t0 Hf Hr Hd)).
  unfold bind at 1. now rewrite (open_write_ok _ w f bs Hf Hw Hbs).
Qed.

(** Whatever is read, the transformed text can be written. *)
Lemma transformed_text_encodes t0 bs0 :
  decode bs0 = Some t0 ->
  exists bs,
    encode (translate_newlines os (transform (universal_newlines t0)))
    = Some bs.
Proof.
  intro Hd. apply encode_scalars.
  apply translate_newlines_scalars, transform_scalars,
    universal_newlines_scalars.
  exact (utf8_decode_scalars _ _ Hd).
Qed.

(** A run that completes has printed the confirmation line and nothing
    else. *)
Lemma run_ok_stdout w w' :
  fix_background os w = (Ok tt, w') ->
  stdout w' = stdout w ++ confirmation ++ [LF].
Proof.
  unfold fix_background, bind at 1.
  destruct (open_read target w) as [[content|e] w1] eqn:R; [|discriminate].
  apply open_read_world in R. subst w1.
  unfold bind at 1.
  destruct (open_write os target _ w) as [[[]|e] w2] eqn:W; [|discriminate].
  apply open_write_stdout in W. destruct W as [W _].
  intro P. pose proof (print_ok_inv _ _ _ P) as A.
  rewrite (print_ok _ _ A) in P. injection P as <-.
  cbn [stdout]. now rewrite W.
Qed.

(** With a file that may be read and written and that holds UTF-8, and
    a standard output that can take the confirmation line, the run
    completes: the transformed text is written and the confirmation
    printed. *)
Lemma run_completes w f t0 :
  fs w target = Some f ->
  readable f = true -> writable f = true ->
  decode (data f) = Some t0 ->
  stdout_accepts w confirmation = true ->
  exists bs,
    encode (translate_newlines os (transform (universal_newlines t0)))
    = Some bs
    /\ fix_background os w = (Ok tt, written w f bs).
Proof.
  intros Hf Hr Hw Hd Ha.
  destruct (transformed_text_encodes t0 _ Hd) as [bs Hbs]. exists bs.
  split; [exact Hbs|].
  rewrite (fix_background_after_write w f t0 bs Hf Hr Hw Hd Hbs).
  now rewrite print_ok.
Qed.

End ScriptFacts.

(** ** The outcomes of a run *)

Section Outcomes.

Variable os : platform.

Lemma store_same w f : fs (store w target f) target = Some f.
Proof. unfold store. cbn [fs]. now rewrite String.eqb_refl. Qed.

Lemma store_other w f q : q <> target -> fs (store w target f) q = fs w q.
Proof.
  intro H. unfold store. cbn [fs].
  apply String.eqb_neq in H. now rewrite H.
Qed.

(** A run ends in one of six ways, by the state of the file and of
    standard output. *)
Lemma run_cases w :
  (fs w target = None
   /\ fix_background os w = (Raise FileNotFoundError, w))
  \/ (exists f, fs w target = Some f /\ readable f = false
        /\ fix_background os w = (Raise PermissionError, w))
  \/ (exists f, fs w target = Some f /\ readable f = true
        /\ decode (data f) = None
        /\ fix_background os w = (Raise UnicodeDecodeError, w))
  \/ (exists f t0, fs w target = Some f /\ readable f = true
        /\ decode (data f) = Some t0 /\ writable f = false
        /\ fix_background os w = (Raise PermissionError, w))
  \/ (exists f t0 bs, fs w target = Some f /\ readable f = true
        /\ decode (data f) = Some t0 /\ writable f = true
        /\ encode (translate_newlines os (transform (universal_newlines t0)))
           = Some bs
        /\ stdout_accepts w confirmation = true
        /\ fix_background os w = (Ok tt, written w f bs))
  \/ (exists f t0 bs w', fs w target = Some f /\ readable f = true
        /\ decode (data f) = Some t0 /\ writable f = true
        /\ encode (translate_newlines os (transform (universal_newlines t0)))
           = Some bs
        /\ stdout_accepts w confirmation = false
        /\ fix_background os w = (Raise UnicodeEncodeError, w')
        /\ fs w' = fs (rewritten w f bs)
        /\ stdout_encodes w' = stdout_encodes w
        /\ (stdout w' = stdout w \/ stdout w' = stdout w ++ confirmation)).
Proof.
  destruct (fs w target) as [f|] eqn:Hf.
  - destruct (readable f) eqn:Hr.
    + destruct (decode (data f)) as [t0|] eqn:Hd.
      * destruct (writable f) eqn:Hw.
        -- destruct (transformed_text_encodes os t0 _ Hd) as [bs Hbs].
           pose proof (fix_background_after_write os w f t0 bs
                         Hf Hr Hw Hd Hbs) as E.
           destruct (stdout_accepts w confirmation) eqn:Ha.
           ++ do 4 right. left. exists f, t0, bs.
              repeat (split; [assumption || reflexivity|]).
              rewrite E. now rewrite print_ok.
           ++ do 5 right.
              destruct (print_raises confirmation (rewritten w f bs) Ha)
                as (w' & P & P1 & P2 & P3).
              exists f, t0, bs, w'.
              repeat (split; [assumption || reflexivity|]).
              split; [now rewrite E|]. auto.
        -- do 3 right. left. exists f, t0.
           repeat split; try assumption.
           rewrite (fix_background_after_read os w _
                      (open_read_ok w f t0 Hf Hr Hd)).
           unfold bind, open_write. now rewrite Hf, Hw.
      * do 2 right. left. exists f. repeat split; try assumption.
        unfold fix_background, bind, open_read. now rewrite Hf, Hr, Hd.
    + right. left. exists f. repeat split; try assumption.
      unfold fix_background, bind, open_read. now rewrite Hf, Hr.
  - left. split; [reflexivity|].
    unfold fix_background, bind, open_read. now rewrite Hf.
Qed.

(** A run whose result is known. *)
Lemma run_result w r :
  fst (fix_background os w) = r ->
  fix_background os w = (r, snd (fix_background os w)).
Proof. intros <-. apply surjective_pairing. Qed.

End Outcomes.

Section RunInversion.

Variable os : platform.

(** A completed run read a file that may be read and written and holds
    UTF-8, and left the world [written]. *)
Lemma run_ok_inv w w' :
  fix_background os w = (Ok tt, w') ->
  exists f t0 bs,
    fs w target = Some f /\ readable f = true /\ writable f = true
    /\ decode (data f) = Some t0
    /\ encode (translate_newlines os (transform (universal_newlines t0)))
       = Some bs
    /\ w' = written w f bs.
Proof.
  intro H.
  destruct (run_cases os w) as [[_ E] | [(f & _ & _ & E)
    | [(f & _ & _ & _ & E) | [(f & t0 & _ & _ & _ & _ & E)
      | [(f & t0 & bs & Hf & Hr & Hd & Hw & Hbs & _ & E)
        | (f & t0 & bs & w'' & _ & _ & _ & _ & _ & _ & E & _)]]]]];
    rewrite E in H; try discriminate.
  injection H as <-. exists f, t0, bs. auto 10.
Qed.

(** Standard output took the confirmation line. *)
Lemma run_ok_accepts w w' :
  fix_background os w = (Ok tt, w') ->
  stdout_accepts w confirmation = true.
Proof.
  intro H.
  destruct (run_cases os w) as [[_ E] | [(f & _ & _ & E)
    | [(f & _ & _ & _ & E) | [(f & t0 & _ & _ & _ & _ & E)
      | [(f & t0 & bs & _ & _ & _ & _ & _ & Ha & E)
        | (f & t0 & bs & w'' & _ & _ & _ & _ & _ & _ & E & _)]]]]];
    rewrite E in H; try discriminate.
  exact Ha.
Qed.

(** What is read from the file after a completed run. *)
Lemma run_ok_read_back w w' :
  fix_background os w = (Ok tt, w') ->
  exists f t0,
    fs w target = Some f /\ decode (data f) = Some t0
    /\ open_read target w = (Ok (universal_newlines t0), w)
    /\ open_read target w'
       = (Ok (transform (universal_newlines t0)), w').
Proof.
  intro H. apply run_ok_inv in H.
  destruct H as (f & t0 & bs & Hf & Hr & Hw & Hd & Hbs & ->).
  exists f, t0. split; [exact Hf|]. split; [exact Hd|].
  split; [exact (open_read_ok w f t0 Hf Hr Hd)|].
  assert (Hcr : avoids CR (transform (universal_newlines t0)) = true)
    by apply transform_avoids_cr, universal_newlines_avoids_cr.
  rewrite <- (universal_newlines_translate os _ Hcr).
  apply (open_read_ok _ (File bs (readable f) true)).
  - unfold written, rewritten. cbn [fs]. apply store_same.
  - exact Hr.
  - now apply decode_encode.
Qed.

End RunInversion.


(* ================================================================== *)
(** * The claims *)


(** ** C1 *)

(** C1, as stated, fails: with two removal sites in the text, the
    [re.sub] of the script (called without [count]) deletes the block of
    both, where replace-first would leave the second. *)
Lemma removal_not_replace_first : ~ replace_first_at two_sites.
Proof.
  unfold replace_first_at. intro H.
  apply (f_equal (@List.length N)) in H. vm_compute in H. discriminate H.
Qed.

(** C1, amended: the removal pass replaces every occurrence found
    scanning left to right.  At the first site it keeps the anchor and one
    newline, deletes the block, and goes on with the text after the site,
    where replace-first would stop; the two agree exactly when the pass
    changes nothing in the text after the first site. *)
Theorem removal_replaces_every_site x w1 w2 w3 w4 r :
  wild w1 = true -> wild w2 = true -> wild w3 = true -> wild w4 = true ->
  absent_before removal_pattern x (removal_site [w1; w2; w3; w4] ++ r)
  = true ->
  let t := x ++ removal_site [w1; w2; w3; w4] ++ r in
  remove_early_logs t = x ++ alarm_anchor ++ [LF] ++ remove_early_logs r
  /\ remove_first_only t = x ++ alarm_anchor ++ [LF] ++ r
  /\ (remove_early_logs t = remove_first_only t <-> remove_early_logs r = r).
Proof.
  intros H1 H2 H3 H4 Hx t.
  assert (E1 : remove_early_logs t
               = x ++ alarm_anchor ++ [LF] ++ remove_early_logs r).
  { unfold t. rewrite (removal_absent_before _ _ Hx).
    now rewrite removal_at_site. }
  assert (E2 : remove_first_only t = x ++ alarm_anchor ++ [LF] ++ r).
  { unfold t. rewrite (remove_first_absent_before _ _ Hx).
    now rewrite remove_first_at_site. }
  repeat split; [exact E1|exact E2| |].
  - rewrite E1, E2. intro H.
    now do 3 apply app_inv_head in H.
  - rewrite E1, E2. now intros ->.
Qed.

(** A character, then two sites. *)
Lemma removal_replaces_every_site_witness :
  remove_early_logs (str "a" ++ two_sites)
  = str "a" ++ alarm_anchor ++ [LF]
    ++ remove_early_logs (removal_site inserted_tails).
Proof.
  refine (proj1 (removal_replaces_every_site (str "a")
            (nth 0 inserted_tails []) (nth 1 inserted_tails [])
            (nth 2 inserted_tails []) (nth 3 inserted_tails [])
            (removal_site inserted_tails) _ _ _ _ _));
    vm_compute; reflexivity.
Defined.

(** ** C2 *)

(** C2, as stated, fails in both halves.  The Firefox anchor is still in
    the output, so a second run inserts the block once more after it:
    so it is on the small background.js.  And where a removed block was
    followed by an empty line and four more diagnostic lines, these now
    follow the alarm anchor, so a second run removes again: so it is on
    a removal site followed by an empty line and the four fixed lines,
    a text without any Firefox anchor. *)
Lemma transform_not_idempotent :
  transform (transform small_background) <> transform small_background
  /\ remove_early_logs (transform repeated_block) <> transform repeated_block.
Proof.
  split; intro H; apply (f_equal (@List.length N)) in H;
    vm_compute in H; discriminate H.
Qed.

(** C2, amended: the second run removes nothing exactly when the first
    removal pass leaves no occurrence of the removal pattern, since the
    insertion pass neither brings a removal site nor takes one away.
    The second run is then the insertion pass run again on the first
    output: it adds one more block for every occurrence of the Firefox
    anchor in the text left by the first removal pass, and it changes
    nothing exactly when there is none. *)
Theorem second_run_inserts_again t :
  (remove_early_logs (transform t) = transform t
   <-> occurs removal_pattern (remove_early_logs t) = false)
  /\ (occurs removal_pattern (remove_early_logs t) = false ->
      transform (transform t) = add_logs_after_import (transform t)
      /\ List.length (transform (transform t))
         = List.length (transform t)
           + List.length inserted_block
             * occurrences firefox_anchor (remove_early_logs t)
      /\ (transform (transform t) = transform t
          <-> occurs insertion_pattern (remove_early_logs t) = false)).
Proof.
  assert (R : remove_early_logs (transform t) = transform t
              <-> occurs removal_pattern (remove_early_logs t) = false).
  { rewrite <- transform_sites. split.
    - intro H. destruct (occurs removal_pattern (transform t)) eqn:E;
        [|reflexivity].
      apply removal_shortens in E. rewrite H in E. lia.
    - apply removal_absent. }
  split; [exact R|]. intro Hr. apply R in Hr.
  assert (E : transform (transform t) = add_logs_after_import (transform t)).
  { unfold transform at 1. now rewrite Hr. }
  split; [exact E|]. split; [|split].
  - rewrite E, insertion_length.
    replace (occurrences firefox_anchor (transform t))
      with (occurrences firefox_anchor (remove_early_logs t))
      by (symmetry; apply insertion_occurrences).
    reflexivity.
  - rewrite E. intro H.
    destruct (occurs insertion_pattern (remove_early_logs t)) eqn:O;
      [|reflexivity].
    apply insertion_keeps_anchor in O. fold (transform t) in O.
    apply insertion_grows in O. rewrite H in O. lia.
  - intro O. rewrite E.
    assert (T : transform t = remove_early_logs t)
      by (unfold transform; now apply insertion_absent).
    rewrite T. now apply insertion_absent.
Qed.

(** The small background.js, run twice. *)
Lemma second_run_inserts_again_witness :
  remove_early_logs (transform small_background) = transform small_background
  /\ transform (transform small_background)
     = add_logs_after_import (transform small_background).
Proof.
  pose proof (second_run_inserts_again small_background) as H.
  assert (O : occurs removal_pattern (remove_early_logs small_background)
              = false) by (vm_compute; reflexivity).
  split.
  - exact (proj2 (proj1 H) O).
  - exact (proj1 (proj2 H O)).
Defined.

(** ** C3 *)




(** ** C4 *)



(** Only the newline translation of text mode can change the bytes of
    such a file: on Posix a file with Windows line ends comes back with
    Unix ones. *)
Example crlf_file_is_rewritten :
  let w := world_with
             (Some (File (list_byte_of_string "a" ++ [x0d; x0a]) true true)) in
  let w' := snd (fix_background Posix w) in
  fst (fix_background Posix w) = Ok tt
  /\ fs w' target = Some (File (list_byte_of_string "a" ++ [x0a]) true true)
  /\ stdout w' = confirmation ++ [LF].
Proof. vm_compute. repeat split. Qed.

(** On a standard output that cannot encode the check mark of the
    confirmation, the run ends with [UnicodeEncodeError] at the [print],
    whether or not the passes changed the text: the file has been
    written by then, and nothing is printed. *)
Example ascii_stdout_fails_after_the_write :
  let w := ascii_world_with (Some background_file) in
  let w' := snd (fix_background Posix w) in
  fst (fix_background Posix w) = Raise UnicodeEncodeError
  /\ option_map data (fs w' target) = encode (transform small_background)
  /\ stdout w' = []
  /\ fst (fix_background Posix (ascii_world_with (Some plain_file)))
     = Raise UnicodeEncodeError.
Proof. vm_compute. repeat split. Qed.


(** ** C5 *)

(** C5: each pass leaves a text in which its pattern does not occur as
    it is. *)
Theorem pass_is_identity_when_pattern_absent t :
  (occurs removal_pattern t = false -> remove_early_logs t = t)
  /\ (occurs insertion_pattern t = false -> add_logs_after_import t = t).
Proof. split; [apply removal_absent | apply insertion_absent]. Qed.

(** Each anchor alone is a text without the other pattern. *)
Lemma pass_is_identity_when_pattern_absent_witness :
  remove_early_logs firefox_anchor = firefox_anchor
  /\ add_logs_after_import alarm_anchor = alarm_anchor.
Proof.
  split.
  - apply (proj1 (pass_is_identity_when_pattern_absent firefox_anchor)).
    vm_compute. reflexivity.
  - apply (proj2 (pass_is_identity_when_pattern_absent alarm_anchor)).
    vm_compute. reflexivity.
Defined.

(** ** C6 *)

(** C6: when the file is missing or may not be read, the run ends with
    an error of the I/O class, and the world is as before: nothing was
    written, nothing printed. *)
Theorem missing_or_unreadable_file_fails os w :
  fs w target = None
  \/ (exists f, fs w target = Some f /\ readable f = false) ->
  exists e, fix_background os w = (Raise e, w) /\ is_OSError e = true.
Proof.
  intros [H | (f & H & Hr)].
  - exists FileNotFoundError. split; [|reflexivity].
    unfold fix_background, bind, open_read. now rewrite H.
  - exists PermissionError. split; [|reflexivity].
    unfold fix_background, bind, open_read. now rewrite H, Hr.
Qed.

(** No file at all. *)
Lemma missing_or_unreadable_file_fails_witness :
  exists e, fix_background Posix (world_with None)
            = (Raise e, world_with None)
            /\ is_OSError e = true.
Proof.
  apply (missing_or_unreadable_file_fails Posix (world_with None)).
  left. reflexivity.
Defined.

(** ** C7 *)

(** C7: when the file may be read but not written, the read succeeds,
    opening the file for writing fails with [PermissionError], an error
    of the I/O class, and the world is as before: the file keeps its
    content. *)
Theorem unwritable_file_left_untouched os w f t0 :
  fs w target = Some f ->
  readable f = true -> writable f = false ->
  decode (data f) = Some t0 ->
  let content := universal_newlines t0 in
  open_read target w = (Ok content, w)
  /\ open_write os target (transform content) w = (Raise PermissionError, w)
  /\ fix_background os w = (Raise PermissionError, w)
  /\ is_OSError PermissionError = true.
Proof.
  intros Hf Hr Hw Hd content.
  assert (R : open_read target w = (Ok content, w))
    by exact (open_read_ok w f t0 Hf Hr Hd).
  assert (W : open_write os target (transform content) w
              = (Raise PermissionError, w))
    by (unfold open_write; now rewrite Hf, Hw).
  repeat split; [exact R|exact W|].
  rewrite (fix_background_after_read os w content R).
  unfold bind. now rewrite W.
Qed.

(** A read-only file. *)
Lemma unwritable_file_left_untouched_witness :
  fix_background Posix (world_with (Some read_only_file))
  = (Raise PermissionError, world_with (Some read_only_file)).
Proof.
  refine (proj1 (proj2 (proj2
    (unwritable_file_left_untouched Posix (world_with (Some read_only_file))
       read_only_file (str "// nothing to move here") _ _ _ _))));
    vm_compute; reflexivity.
Defined.

(** ** C8 *)

(** C8: a run that completes has added to standard output the
    confirmation and a newline, one line, whatever the passes did, and
    nothing else. *)
Theorem completed_run_prints_confirmation os w w' :
  fix_background os w = (Ok tt, w') ->
  stdout w' = stdout w ++ confirmation ++ [LF]
  /\ avoids LF confirmation = true.
Proof.
  intro H. split; [now apply (run_ok_stdout os)|].
  vm_compute. reflexivity.
Qed.

(** The run on the small background.js. *)
Lemma completed_run_prints_confirmation_witness :
  stdout (snd (fix_background Posix (world_with (Some background_file))))
  = confirmation ++ [LF].
Proof.
  refine (proj1 (completed_run_prints_confirmation Posix
            (world_with (Some background_file))
            (snd (fix_background Posix (world_with (Some background_file))))
            _)).
  apply run_result. vm_compute. reflexivity.
Defined.

(** ** C9 *)

(** C9, as stated, fails: the insertion template is a fixed text, and
    the removal pattern takes any four lines with the four fixed
    beginnings.  Where the removed lines read [chrome.runtime.id], the
    inserted lines read [browser.runtime.id] all the same. *)
Lemma inserted_block_is_not_the_removed_block :
  ~ inserts_what_was_removed [] chrome_tails ([LF] ++ firefox_anchor ++ [LF])
      (alarm_anchor ++ [LF; LF]) [LF].
Proof.
  unfold inserts_what_was_removed. intro H.
  specialize (H ltac:(vm_compute; reflexivity) ltac:(vm_compute; reflexivity)
                ltac:(vm_compute; reflexivity)).
  apply (f_equal (@List.length N)) in H. vm_compute in H. discriminate H.
Qed.

(** C9, amended: at the first removal site of a text the removal pass
    deletes an empty line and the four lines found there, whatever
    follows their fixed beginnings; and wherever the Firefox anchor
    occurs in the text left by the removal pass, the transformation
    writes after it an empty line, the comment line and the four fixed
    lines of the template, whatever was removed.  The inserted lines are
    the removed lines exactly when the removed lines are the lines of
    the template. *)
Theorem inserted_block_is_fixed x w1 w2 w3 w4 y p q :
  wild w1 = true -> wild w2 = true -> wild w3 = true -> wild w4 = true ->
  let ws := [w1; w2; w3; w4] in
  let t := x ++ removal_site ws ++ y in
  absent_before removal_pattern x (removal_site ws ++ y) = true ->
  remove_early_logs t = p ++ firefox_anchor ++ q ->
  remove_early_logs t = x ++ alarm_anchor ++ [LF] ++ remove_early_logs y
  /\ transform t
     = add_logs_after_import p ++ firefox_anchor ++ [LF; LF] ++ comment_line
       ++ diag_block inserted_tails ++ add_logs_after_import q
  /\ (inserts_what_was_removed x ws y p q <-> ws = inserted_tails).
Proof.
  intros H1 H2 H3 H4 ws t Hx Hpq. subst t ws.
  assert (E1 : remove_early_logs (x ++ removal_site [w1; w2; w3; w4] ++ y)
               = x ++ alarm_anchor ++ [LF] ++ remove_early_logs y).
  { rewrite (removal_absent_before _ _ Hx).
    now rewrite removal_at_site by assumption. }
  assert (E2 : transform (x ++ removal_site [w1; w2; w3; w4] ++ y)
               = add_logs_after_import p ++ firefox_anchor ++ [LF; LF]
                 ++ comment_line ++ diag_block inserted_tails
                 ++ add_logs_after_import q).
  { unfold transform. rewrite Hpq. apply insertion_app. }
  split; [exact E1|]. split; [exact E2|]. split.
  - intro H. unfold inserts_what_was_removed in H.
    assert (W : forallb wild [w1; w2; w3; w4] = true)
      by (cbn [forallb]; now rewrite H1, H2, H3, H4).
    specialize (H W Hx Hpq). rewrite E2 in H.
    do 4 apply app_inv_head in H.
    pose proof inserted_tails_wild as T. unfold inserted_tails in *.
    cbn [forallb] in T. apply andb_true_iff in T. destruct T as [T1 T].
    apply andb_true_iff in T. destruct T as [T2 T].
    apply andb_true_iff in T. destruct T as [T3 T].
    apply andb_true_iff in T. destruct T as [T4 _].
    symmetry in H. apply diag_block_inj in H; try assumption. apply H.
  - intros E _ _ _. rewrite E2. now rewrite E.
Qed.

(** The small background.js, where the removed lines are those of the
    template. *)
Lemma inserted_block_is_fixed_witness :
  transform small_background
  = add_logs_after_import
      (str "const CONFIG = {" ++ [LF] ++ str "    " ++ alarm_anchor
       ++ [LF; LF] ++ str "if (typeof importScripts === 'undefined') {"
       ++ [LF] ++ str "    ")
    ++ firefox_anchor ++ [LF; LF] ++ comment_line
    ++ diag_block inserted_tails ++ add_logs_after_import [LF].
Proof.
  refine (proj1 (proj2 (inserted_block_is_fixed
    (str "const CONFIG = {" ++ [LF] ++ str "    ")
    (nth 0 inserted_tails []) (nth 1 inserted_tails [])
    (nth 2 inserted_tails []) (nth 3 inserted_tails [])
    ([LF] ++ str "if (typeof importScripts === 'undefined') {" ++ [LF]
     ++ str "    " ++ firefox_anchor ++ [LF])
    (str "const CONFIG = {" ++ [LF] ++ str "    " ++ alarm_anchor
       ++ [LF; LF] ++ str "if (typeof importScripts === 'undefined') {"
       ++ [LF] ++ str "    ")
    [LF] _ _ _ _ _ _))); vm_compute; reflexivity.
Defined.

(** ** C10 *)

(** C10: the insertion pass writes the block after every occurrence of
    the Firefox anchor: a text cut at any occurrences of the anchor is
    transformed piece by piece, each anchor followed by the block. *)
Theorem insertion_after_every_anchor (pieces : list text) (last : text) :
  add_logs_after_import
    (List.concat (map (fun s => s ++ firefox_anchor) pieces) ++ last)
  = List.concat
      (map (fun s => add_logs_after_import s
                     ++ firefox_anchor ++ inserted_block) pieces)
    ++ add_logs_after_import last.
Proof.
  induction pieces as [|s pieces IH]; [reflexivity|].
  cbn [map List.concat]. rewrite <- !app_assoc.
  now rewrite insertion_app, IH.
Qed.

(* ================================================================== *)
(** * Further properties, one by one *)

(** X1: the removal pattern occurs in a text exactly when the text holds
    a removal site: the alarm anchor, an empty line, and four lines that
    begin as the four line patterns say, each with at least one more
    character and ended by a newline. *)
Theorem removal_pattern_occurs_iff_site s :
  occurs removal_pattern s = true
  <-> exists x w1 w2 w3 w4 r,
        wild w1 = true /\ wild w2 = true /\ wild w3 = true /\ wild w4 = true
        /\ s = x ++ removal_site [w1; w2; w3; w4] ++ r.
Proof.
  split.
  - intro H. apply removal_first_site in H.
    destruct H as (x & w1 & w2 & w3 & w4 & r & H1 & H2 & H3 & H4 & E & _).
    exists x, w1, w2, w3, w4, r. auto 10.
  - intros (x & w1 & w2 & w3 & w4 & r & H1 & H2 & H3 & H4 & ->).
    apply occurs_app, matches_occurs. unfold matches.
    now rewrite removal_match.
Qed.

(** X2: the insertion pattern occurs in a text exactly when the Firefox
    anchor is a part of the text. *)
Theorem insertion_pattern_occurs_iff_anchor s :
  occurs insertion_pattern s = true
  <-> exists x r, s = x ++ firefox_anchor ++ r.
Proof.
  split.
  - intro H. apply occurs_first in H. destruct H as (x & r & -> & _ & Hr).
    apply insertion_matches_iff in Hr. destruct Hr as [r' ->]. eauto.
  - intros (x & r & ->).
    apply occurs_app, matches_occurs, insertion_matches_iff. eauto.
Qed.

(** X3: the removal pass only deletes: its result is the text with some
    characters deleted, so it is never longer than the text; it is
    strictly shorter where the removal pattern occurs, and it is the text
    itself exactly when the pattern does not occur. *)
Theorem removal_only_deletes s :
  subsequence (remove_early_logs s) s
  /\ List.length (remove_early_logs s) <= List.length s
  /\ (occurs removal_pattern s = true ->
      List.length (remove_early_logs s) < List.length s)
  /\ (remove_early_logs s = s <-> occurs removal_pattern s = false).
Proof.
  split; [apply removal_subsequence|].
  split; [apply removal_length|].
  split; [apply removal_shortens|]. split.
  - intro H. destruct (occurs removal_pattern s) eqn:E; [|reflexivity].
    apply removal_shortens in E. rewrite H in E. lia.
  - apply removal_absent.
Qed.

(** X4: the insertion pass adds one block for every occurrence of the
    Firefox anchor and nothing else: the result is longer by the length
    of the block times the number of occurrences, and it is the text
    itself exactly when there is none. *)
Theorem insertion_adds_a_block_per_anchor s :
  List.length (add_logs_after_import s)
  = List.length s
    + List.length inserted_block * occurrences firefox_anchor s
  /\ (add_logs_after_import s = s <-> occurrences firefox_anchor s = 0).
Proof.
  assert (L : List.length (add_logs_after_import s)
              = List.length s
                + List.length inserted_block * occurrences firefox_anchor s).
  { rewrite add_logs_anchor.
    apply (sub_anchor_length_occurrences firefox_anchor inserted_block
             firefox_anchor_borderless firefox_anchor_nonempty). }
  split; [exact L|]. split.
  - intro H. rewrite H in L.
    pose proof inserted_block_nonempty as B.
    destruct (occurrences firefox_anchor s); [reflexivity|]. nia.
  - intro H. apply insertion_absent.
    destruct (occurs insertion_pattern s) eqn:E; [|reflexivity].
    rewrite insertion_pattern_anchor in E.
    apply (occurrences_occurs firefox_anchor firefox_anchor_borderless
             firefox_anchor_nonempty) in E. lia.
Qed.

(** X5: the insertion pass neither removes an occurrence of the Firefox
    anchor nor brings a new one, so every further application adds the
    same number of blocks: after [k] applications the text is longer by
    [k] blocks for each anchor. *)
Theorem insertion_keeps_the_anchors s :
  occurrences firefox_anchor (add_logs_after_import s)
  = occurrences firefox_anchor s
  /\ forall k,
       List.length (Nat.iter k add_logs_after_import s)
       = List.length s
         + k * (List.length inserted_block * occurrences firefox_anchor s).
Proof.
  split; [apply insertion_occurrences|].
  assert (O : forall k, occurrences firefox_anchor
                          (Nat.iter k add_logs_after_import s)
                        = occurrences firefox_anchor s).
  { induction k as [|k IH]; [reflexivity|].
    cbn [Nat.iter nat_rect]. now rewrite insertion_occurrences. }
  induction k as [|k IH]; [cbn [Nat.iter nat_rect]; lia|].
  change (Nat.iter (S k) add_logs_after_import s)
    with (add_logs_after_import (Nat.iter k add_logs_after_import s)).
  rewrite add_logs_anchor.
  rewrite (sub_anchor_length_occurrences firefox_anchor inserted_block
             firefox_anchor_borderless firefox_anchor_nonempty).
  rewrite O, IH. lia.
Qed.





(** X8: after a completed run the file holds the transformed text, with
    the line ends of the platform; it may be read and written as before,
    and no other file has changed. *)
Theorem completed_run_writes_the_transformed_text os w w' :
  fix_background os w = (Ok tt, w') ->
  exists f t0 f',
    fs w target = Some f /\ decode (data f) = Some t0
    /\ fs w' target = Some f'
    /\ decode (data f')
       = Some (translate_newlines os (transform (universal_newlines t0)))
    /\ readable f' = readable f /\ writable f' = writable f
    /\ forall q, q <> target -> fs w' q = fs w q.
Proof.
  intro H. apply run_ok_inv in H.
  destruct H as (f & t0 & bs & Hf & Hr & Hw & Hd & Hbs & ->).
  exists f, t0, (File bs (readable f) true).
  split; [exact Hf|]. split; [exact Hd|]. unfold written. cbn [fs].
  split; [apply store_same|]. cbn [data readable writable].
  split; [now apply decode_encode|].
  split; [reflexivity|]. split; [now rewrite Hw|].
  intros q Hq. now apply store_other.
Qed.

(** The small background.js. *)
Lemma completed_run_writes_the_transformed_text_witness :
  exists f',
    fs (snd (fix_background Posix (world_with (Some background_file)))) target
    = Some f'
    /\ decode (data f') = Some (transform small_background).
Proof.
  destruct (completed_run_writes_the_transformed_text Posix
              (world_with (Some background_file))
              (snd (fix_background Posix (world_with (Some background_file))))
              ltac:(apply run_result; vm_compute; reflexivity))
    as (f & t0 & f' & Hf & Hd & Hf' & Hd' & _).
  exists f'. split; [exact Hf'|].
  rewrite Hd'. vm_compute in Hf. injection Hf as <-.
  vm_compute in Hd. injection Hd as <-. vm_compute. reflexivity.
Defined.

(** X9: after a completed run, reading the file as the script reads it
    gives the transformed text, on either platform: the newline
    translations of writing and reading cancel, and so do the encoding
    and the decoding. *)
Theorem written_file_reads_back os w w' :
  fix_background os w = (Ok tt, w') ->
  exists content,
    open_read target w = (Ok content, w)
    /\ open_read target w' = (Ok (transform content), w').
Proof.
  intro H. apply run_ok_read_back in H.
  destruct H as (f & t0 & _ & _ & R & R').
  now exists (universal_newlines t0).
Qed.

(** The small background.js on Windows. *)
Lemma written_file_reads_back_witness :
  exists content,
    open_read target (world_with (Some background_file))
    = (Ok content, world_with (Some background_file))
    /\ open_read target
         (snd (fix_background Windows (world_with (Some background_file))))
       = (Ok (transform content),
          snd (fix_background Windows (world_with (Some background_file)))).
Proof.
  apply (written_file_reads_back Windows).
  apply run_result. vm_compute. reflexivity.
Defined.

(** X10: on Posix a completed run leaves a file without carriage
    returns, whatever line ends the file had: reading takes them away
    and neither pass nor the write brings one. *)
Theorem posix_run_leaves_no_carriage_return w w' :
  fix_background Posix w = (Ok tt, w') ->
  exists f' t',
    fs w' target = Some f' /\ decode (data f') = Some t'
    /\ avoids CR t' = true.
Proof.
  intro H. apply run_ok_inv in H.
  destruct H as (f & t0 & bs & Hf & Hr & Hw & Hd & Hbs & ->).
  exists (File bs (readable f) true), (transform (universal_newlines t0)).
  unfold written. cbn [fs]. split; [apply store_same|].
  cbn [data]. rewrite translate_newlines_posix in Hbs.
  split; [now apply decode_encode|].
  apply transform_avoids_cr, universal_newlines_avoids_cr.
Qed.

(** A file with Windows line ends. *)
Lemma posix_run_leaves_no_carriage_return_witness :
  exists f' t',
    fs (snd (fix_background Posix
               (world_with (Some (File [x61; x0d; x0a] true true)))))
       target = Some f'
    /\ decode (data f') = Some t' /\ avoids CR t' = true.
Proof.
  apply (posix_run_leaves_no_carriage_return
           (world_with (Some (File [x61; x0d; x0a] true true)))).
  apply run_result. vm_compute. reflexivity.
Defined.

(** X11: a second run after a completed run completes too; the file
    then reads as the transformation applied twice to the first text, and
    the confirmation has been printed twice. *)
Theorem two_runs_transform_twice os w w1 :
  fix_background os w = (Ok tt, w1) ->
  exists content w2,
    open_read target w = (Ok content, w)
    /\ fix_background os w1 = (Ok tt, w2)
    /\ open_read target w2 = (Ok (transform (transform content)), w2)
    /\ stdout w2
       = stdout w ++ confirmation ++ [LF] ++ confirmation ++ [LF].
Proof.
  intro H1.
  destruct (run_ok_read_back os w w1 H1) as (f & t0 & Hf & Hd & R & R1).
  pose proof (run_ok_stdout os w w1 H1) as S1.
  pose proof (run_ok_accepts os w w1 H1) as A1.
  apply run_ok_inv in H1.
  destruct H1 as (f0 & t00 & bs & Hf0 & Hr & Hw & Hd0 & Hbs & ->).
  assert (Hf1 : fs (written w f0 bs) target
                = Some (File bs (readable f0) true))
    by (unfold written; cbn [fs]; apply store_same).
  assert (Hd1 : decode bs
                = Some (translate_newlines os
                          (transform (universal_newlines t00))))
    by now apply decode_encode.
  destruct (run_completes os (written w f0 bs) _ _ Hf1 Hr eq_refl Hd1 A1)
    as (bs2 & _ & H2).
  exists (universal_newlines t0). eexists.
  split; [exact R|]. split; [exact H2|].
  destruct (run_ok_read_back os _ _ H2) as (f1 & t1 & Hf1' & Hd1' & R1' & R2).
  rewrite R1 in R1'. injection R1' as E.
  rewrite <- E in R2. split; [exact R2|].
  rewrite (run_ok_stdout os _ _ H2), S1. now rewrite <- !app_assoc.
Qed.

(** The small background.js, run twice. *)
Lemma two_runs_transform_twice_witness :
  exists content w2,
    open_read target (world_with (Some background_file))
    = (Ok content, world_with (Some background_file))
    /\ fix_background Posix
         (snd (fix_background Posix (world_with (Some background_file))))
       = (Ok tt, w2)
    /\ open_read target w2 = (Ok (transform (transform content)), w2)
    /\ stdout w2 = [] ++ confirmation ++ [LF] ++ confirmation ++ [LF].
Proof.
  apply (two_runs_transform_twice Posix (world_with (Some background_file))).
  apply run_result. vm_compute. reflexivity.
Defined.
